(** * File-based stream: schema inference and record extraction

    A shallow embedding of
    [airbyte_cdk/sources/file_based/file_based_stream.py]
    (class [FileBasedStream]) together with the properties of its
    schema-inference loop, sampling policy, memoisation, record
    extraction and construction.

    Python objects become records of fields and functions, the instance
    state that the methods mutate ([functools.cache] tables, the asyncio
    event loop, the logging output) lives in an explicit [World] that is
    threaded through a small state-and-exception monad, and the
    non-determinism of [asyncio.wait] is an explicit [Schedule]. *)

From stdpp Require Import base strings gmap list sorting.
From Stdlib Require Import ZArith Lia Ascii.

Set Warnings "-register-all".
Open Scope Z_scope.

(** ** Data model *)

(** Python's [Any], restricted to the JSON-like values the stream handles. *)
Inductive Value :=
  | VNone
  | VBool (b : bool)
  | VInt (z : Z)
  | VStr (s : string)
  | VList (l : list Value)
  | VDict (m : gmap string Value).

(** [Mapping[str, Any]]: records, raw configuration, stream state and JSON
    schemas all have this Python type. *)
Abbreviation AnyMapping := (gmap string Value).
Abbreviation Schema := (gmap string Value).

(** [remote_file.FileType] and [remote_file.RemoteFile]; [last_modified] is a
    [datetime], modelled as an integer instant. *)
Inductive FileType := Avro | Csv | Jsonl | Parquet.

Record RemoteFile := {
  uri : string;
  last_modified : Z;
  file_type : FileType
}.

(** Exceptions: the class of the exception, its message, and the cause
    attached by [raise ... from exc]. *)
Inductive ExcClass :=
  | ConfigValidationError
  | MissingSchemaError
  | SchemaInferenceError
  | ValueError
  | OtherException.

Inductive Exception :=
  | Exc (cls : ExcClass) (msg : string) (cause : option Exception).

Definition exc_class (e : Exception) : ExcClass :=
  match e with Exc c _ _ => c end.

Definition exc_msg (e : Exception) : string :=
  match e with Exc _ m _ => m end.

Inductive Result (A : Type) :=
  | Return (a : A)
  | Raise (e : Exception).
Arguments Return {A} a.
Arguments Raise {A} e.

(** [file_based_stream_config.FileBasedStreamConfig], the fields the stream
    reads. *)
Module Config.
Record t := {
  name : string;
  file_type : FileType;
  globs : list string;
  validation_policy : string;
  input_schema : option AnyMapping;
  primary_key : option (list string)
}.
End Config.

(** [AbstractFileBasedStreamReader]: an object with a listing method; the
    second argument is the optional lower bound on [last_modified]. *)
Record AbstractFileBasedStreamReader := {
  list_matching_files : list string -> option Z -> list RemoteFile
}.

(** [AbstractDiscoveryPolicy]: two integer properties. *)
Record AbstractDiscoveryPolicy := {
  n_concurrent_requests : Z;
  max_n_files_for_schema_inference : Z
}.

(** [FileTypeParser]: [infer_schema] returns a schema or raises;
    [parse_records] is a generator, given by the records it yields and the
    exception, if any, that ends it. *)
Record FileTypeParser := {
  infer_schema_of :
    RemoteFile -> AbstractFileBasedStreamReader -> Result Schema;
  parse_records : RemoteFile -> AbstractFileBasedStreamReader ->
                  list AnyMapping * option Exception
}.

(** The instance attributes set by [__init__].  [_catalog_schema] is [None]
    exactly when the Python attribute is [None]. *)
Record FileBasedStream := {
  config : Config.t;
  _catalog_schema : option Schema;
  _stream_reader : AbstractFileBasedStreamReader;
  _discovery_policy : AbstractDiscoveryPolicy
}.

(** ** Effects *)

(** An asyncio task created by [_infer_schema] for one file. *)
Record Task := {
  task_id : nat;
  task_file : RemoteFile
}.

Inductive LogRecord :=
  | RecordDidNotPass (record : AnyMapping)
  | RefusingToInfer (n_files : nat) (max_n : Z).

(** What the stream does to its collaborators, in order. *)
Inductive Event :=
  | EvListMatchingFiles (globs : list string) (start : option Z)
  | EvInferFile (f : RemoteFile)
  | EvAwait (in_flight : nat)
  | EvWarning (w : LogRecord).

(** The mutable surroundings of one stream instance: the trace of calls made
    so far, the two [functools.cache] tables (keyed by [self], hence at most
    one entry each), and the tasks of the event loop that were created and
    have neither completed nor been cancelled. *)
Record World := {
  trace : list Event;
  get_json_schema_cache : option Schema;
  list_files_cache : option (list RemoteFile);
  loop_tasks : list Task;
  next_task_id : nat
}.

Definition fresh_world : World :=
  {| trace := []; get_json_schema_cache := None; list_files_cache := None;
     loop_tasks := []; next_task_id := 0 |}.

(** A computation takes the world to a result (a value or a raised
    exception) and a new world.  [None] is not a Python outcome: it marks a
    loop of the model that was cut off by its fuel, and
    [_infer_schema_terminates] below shows that it never occurs. *)
Definition M (A : Type) : Type := World -> option (Result A * World).

Definition raise {A} (e : Exception) : M A := fun w => Some (Raise e, w).

#[export] Instance M_ret : MRet M := fun A a w => Some (Return a, w).
#[export] Instance M_bind : MBind M := fun A B k m w =>
  match m w with
  | Some (Return a, w') => k a w'
  | Some (Raise e, w') => Some (Raise e, w')
  | None => None
  end.

Definition record_event (e : Event) (w : World) : World :=
  {| trace := trace w ++ [e];
     get_json_schema_cache := get_json_schema_cache w;
     list_files_cache := list_files_cache w;
     loop_tasks := loop_tasks w;
     next_task_id := next_task_id w |}.

Definition emit (e : Event) : M unit :=
  fun w => Some (Return tt, record_event e w).

(** [asyncio.create_task]: a new task, registered with the event loop. *)
Definition create_task (f : RemoteFile) : M Task :=
  fun w =>
    let t := {| task_id := next_task_id w; task_file := f |} in
    Some (Return t,
     {| trace := trace w ++ [EvInferFile f];
        get_json_schema_cache := get_json_schema_cache w;
        list_files_cache := list_files_cache w;
        loop_tasks := loop_tasks w ++ [t];
        next_task_id := S (next_task_id w) |}).

Definition is_done (done : list Task) (t : Task) : bool :=
  existsb (fun d => Nat.eqb (task_id d) (task_id t)) done.

(** Completed tasks leave the event loop. *)
Definition retire (done : list Task) : M unit :=
  fun w => Some (Return tt,
            {| trace := trace w;
               get_json_schema_cache := get_json_schema_cache w;
               list_files_cache := list_files_cache w;
               loop_tasks :=
                 List.filter (fun t => negb (is_done done t)) (loop_tasks w);
               next_task_id := next_task_id w |}).

(** ** The scheduler *)

(** Which tasks [asyncio.wait(..., return_when=FIRST_COMPLETED)] reports as
    done is decided by the event loop.  One [Completion] names the position
    of the task that completed first and, in order, the positions (in what
    then remains) of the tasks that had completed as well by the time the
    waiter resumed; [done] is a set, iterated in an order the program does
    not control, so the order is part of the choice. *)
Definition Completion : Type := nat * list nat.
Definition Schedule : Type := list Completion.

Fixpoint take_nth {A} (i : nat) (l : list A) {struct l}
  : option (A * list A) :=
  match l with
  | [] => None
  | x :: l' =>
      match i with
      | O => Some (x, l')
      | S i' =>
          match take_nth i' l' with
          | Some (y, r) => Some (y, x :: r)
          | None => None
          end
      end
  end.

Definition pick {A} (k : nat) (l : list A) : option (A * list A) :=
  take_nth (k mod length l)%nat l.

Fixpoint pick_more {A} (ks : list nat) (done pending : list A)
  : list A * list A :=
  match ks with
  | [] => (done, pending)
  | k :: ks' =>
      match pick k pending with
      | None => (done, pending)
      | Some (t, rest) => pick_more ks' (done ++ [t]) rest
      end
  end.

(** [asyncio.wait] raises [ValueError] on an empty set of awaitables. *)
Definition asyncio_wait (c : Completion) (fs : list Task)
  : M (list Task * list Task) :=
  match pick (fst c) fs with
  | None => raise (Exc ValueError "Set of Tasks/Futures is empty." None)
  | Some (t, rest) =>
      let r := pick_more (snd c) [t] rest in
      emit (EvAwait (length fs));; retire (fst r);; mret r
  end.

(** ** Python built-ins used by the stream *)

(** [sorted(files, key=..., reverse=True)].  Python's sort is stable also
    with [reverse=True]: items with equal keys keep their original order.
    Any stable sort computes the same list; this one inserts from the
    right. *)
Fixpoint insert_desc {A} (key : A -> Z) (x : A) (l : list A) : list A :=
  match l with
  | [] => [x]
  | y :: l' => if key x <? key y then y :: insert_desc key x l' else x :: l
  end.

Definition sorted_reverse {A} (key : A -> Z) (l : list A) : list A :=
  foldr (insert_desc key) [] l.

(** The slice [l[:k]] for a Python integer [k] (a negative [k] counts from
    the end). *)
Definition slice_to {A} (k : Z) (l : list A) : list A :=
  if 0 <=? k then take (Z.to_nat k) l
  else take (length l - Z.to_nat (- k))%nat l.

(** Truth value of an [Optional[Mapping]]: [None] and the empty mapping are
    false. *)
Definition truthy (o : option AnyMapping) : bool :=
  match o with
  | None => false
  | Some m => negb (Nat.eqb (size m) 0)
  end.

Inductive SyncMode := full_refresh | incremental.

(** ** Listing positions and the preference order of sampling *)

(** A list with the position of each item, as Python's [enumerate]. *)
Fixpoint enumerate_from {A} (i : nat) (l : list A) : list (nat * A) :=
  match l with
  | [] => []
  | x :: l' => (i, x) :: enumerate_from (S i) l'
  end.

Definition enumerate {A} (l : list A) : list (nat * A) := enumerate_from 0 l.

(** The file at listing position [p.1] is preferred to the one at [q.1]
    when it was modified strictly later, or at the same instant and is
    listed earlier. *)
Definition preferred (p q : nat * RemoteFile) : Prop :=
  last_modified q.2 < last_modified p.2 \/
  (last_modified q.2 = last_modified p.2 /\ (p.1 < q.1)%nat).

(** ** Extraction as the specification words it *)

(** The world after some more events, everything else untouched. *)
Definition record_events (evs : list Event) (w : World) : World :=
  {| trace := trace w ++ evs;
     get_json_schema_cache := get_json_schema_cache w;
     list_files_cache := list_files_cache w;
     loop_tasks := loop_tasks w;
     next_task_id := next_task_id w |}.

Section Validated.
Variable passes : AnyMapping -> bool.
Variable emitted : RemoteFile -> list AnyMapping.

(** "The concatenation, in file order, of each file's parser output
    filtered by the validation predicate." *)
Definition validated_records (files : list RemoteFile) : list AnyMapping :=
  flat_map (fun file => List.filter passes (emitted file)) files.

(** "Records failing validation are dropped and a diagnostic is
    emitted": one warning per rejected record, in the same order. *)
Definition validation_diagnostics (files : list RemoteFile) : list Event :=
  flat_map (fun file =>
              map (fun record => EvWarning (RecordDidNotPass record))
                  (List.filter (fun record => negb (passes record))
                               (emitted file)))
           files.
End Validated.

(** The files a run of the extraction loop gets through, and how it ends:
    a parser that raises stops the loop after its file. *)
Fixpoint files_read (failure : RemoteFile -> option Exception)
    (files : list RemoteFile) : list RemoteFile * option Exception :=
  match files with
  | [] => ([], None)
  | file :: files' =>
      match failure file with
      | Some e => ([file], Some e)
      | None =>
          let '(read, outcome) := files_read failure files' in
          (file :: read, outcome)
      end
  end.

(** ** Observations on traces *)

(** Projections of a trace. *)
Definition inferred_files (tr : list Event) : list RemoteFile :=
  omap (fun e => match e with EvInferFile f => Some f | _ => None end) tr.

Definition awaits (tr : list Event) : list nat :=
  omap (fun e => match e with EvAwait n => Some n | _ => None end) tr.

Definition listings (tr : list Event) : list (list string * option Z) :=
  omap (fun e => match e with
                 | EvListMatchingFiles g s => Some (g, s)
                 | _ => None
                 end) tr.

Definition warnings (tr : list Event) : list LogRecord :=
  omap (fun e => match e with EvWarning r => Some r | _ => None end) tr.

Definition same_caches (w w' : World) : Prop :=
  get_json_schema_cache w' = get_json_schema_cache w /\
  list_files_cache w' = list_files_cache w.

(** * Pipeline steps

    A shallow embedding of [pipelines/helpers/steps.py]: the two runners
    [run_steps] and [new_run_steps], which run steps one after the other,
    or together when they are wrapped into a sublist, and skip what is
    left once a step has failed. *)

Module Steps.

(** [pipelines.models.steps]: the status of a result ([FAILURE] is the only
    one the runners name), a result, and a step with the three methods the
    runners call.  [run] takes positional and keyword arguments and may
    raise. *)
Inductive StepStatus := SUCCESS | FAILURE | SKIPPED.

Record StepResult := {
  status : StepStatus;
  stdout : string
}.

Record Step := {
  run : list Value -> AnyMapping -> Result StepResult;
  skip : StepResult;
  async_skip : string -> StepResult
}.

(** [Union[Dict, Callable[[Dict[str, StepResult]], Dict]]]. *)
Inductive RunArgs :=
  | ArgsDict (d : AnyMapping)
  | ArgsCallable (f : gmap string StepResult -> Result AnyMapping).

Record Runnable := {
  id : string;
  step : Step;
  args : RunArgs
}.

(** [PipelineContext], the attribute the runners read. *)
Record PipelineContext := {
  skip_steps : list string
}.

(** An item of the list of steps: one step, or a sublist run in
    parallel. *)
Inductive OneOrMany (A : Type) :=
  | One (a : A)
  | Many (l : list A).
Arguments One {A} a.
Arguments Many {A} l.

(** An item of [run_steps]: a step, or a step with the arguments of its
    [run]. *)
Inductive StepAndArgs :=
  | Bare (s : Step)
  | WithArgs (s : Step) (run_args : list Value).

(** What a task of the task group calls. *)
Inductive Call :=
  | CallRun (s : Step) (run_args : list Value) (kwargs : AnyMapping)
  | CallAsyncSkip (s : Step) (reason : string).

(** What the runners do to the logger and to the task group, in order. *)
Inductive StepEvent :=
  | LogInfo (msg : string)
  | Soonify (c : Call).

Definition is_failure (result : StepResult) : bool :=
  match status result with
  | FAILURE => true
  | _ => false
  end.

(** [task.value] once the task group is left. *)
Definition task_value (c : Call) : Result StepResult :=
  match c with
  | CallRun s run_args kwargs => run s run_args kwargs
  | CallAsyncSkip s reason => Return (async_skip s reason)
  end.

(** Leaving [async with asyncer.create_task_group()]: every task has run;
    if one raised, the block raises.  Which exception surfaces when
    several tasks raise is decided by the event loop; here it is the one
    of the first such task. *)
Fixpoint gather (tasks : list Call) : Result (list StepResult) :=
  match tasks with
  | [] => Return []
  | task :: tasks' =>
      match task_value task with
      | Raise e => Raise e
      | Return v =>
          match gather tasks' with
          | Raise e => Raise e
          | Return vs => Return (v :: vs)
          end
      end
  end.

(** A dict built by assigning the pairs in order: a later pair replaces an
    earlier one with the same key. *)
Definition dict_of (kvs : list (string * StepResult))
  : gmap string StepResult :=
  foldl (fun d kv => <[kv.1 := kv.2]> d) ∅ kvs.

Definition AttributeError (msg : string) : Exception :=
  Exc OtherException ("AttributeError: " +:+ msg) None.

Definition evaluate_run_args (args : RunArgs)
    (results : gmap string StepResult) : Result AnyMapping :=
  match args with
  | ArgsCallable f => f results
  | ArgsDict d => Return d
  end.

Definition _get_step_id_str (context : PipelineContext) (step : Runnable)
  : string :=
  let will_be_skipped := bool_decide (id step ∈ skip_steps context) in
  if will_be_skipped then id step +:+ " (skipped)" else id step.

(** The [for] loop of [pretty_log_steps_tree]; the items are steps or
    lists by their type, so the final [raise] has no counterpart. *)
Fixpoint log_steps (context : PipelineContext)
    (steps : list (OneOrMany Runnable)) (log : list StepEvent)
  : list StepEvent :=
  match steps with
  | [] => log
  | One step :: steps' =>
      log_steps context steps'
        (log ++ [LogInfo ("- " +:+ _get_step_id_str context step)])
  | Many step :: steps' =>
      let ids := map (_get_step_id_str context) step in
      let ids_str := String.concat ", " ids in
      log_steps context steps' (log ++ [LogInfo ("- [" +:+ ids_str +:+ "]")])
  end.

Definition pretty_log_steps_tree (context : PipelineContext)
    (steps : list (OneOrMany Runnable)) (log : list StepEvent)
  : list StepEvent :=
  log_steps context steps (log ++ [LogInfo "Steps to Run:"]).

(** [any(result.status is StepStatus.FAILURE for result in
    results.values())]. *)
Definition any_failure (results : gmap string StepResult) : bool :=
  existsb is_failure (map snd (map_to_list results)).

(** The loops that fill [skipped_results] in [new_run_steps]. *)
Definition skip_all (runnables : list (OneOrMany Runnable))
  : gmap string StepResult :=
  foldl (fun skipped_results runnable_step =>
           match runnable_step with
           | One r => <[id r := skip (step r)]> skipped_results
           | Many l =>
               foldl (fun skipped_results s =>
                        <[id s := skip (step s)]> skipped_results)
                     skipped_results l
           end)
        ∅ runnables.

(** The body of the task group of [new_run_steps]: one task per step, in
    order. *)
Fixpoint soonify_steps (context : PipelineContext)
    (steps_to_run : list Runnable) (results : gmap string StepResult)
    (tasks : list Call) (log : list StepEvent)
  : Result (list Call) * list StepEvent :=
  match steps_to_run with
  | [] => (Return tasks, log)
  | step_to_run :: steps' =>
      if bool_decide (id step_to_run ∈ skip_steps context)
      then
        let task := CallAsyncSkip (step step_to_run) "Skipped by user" in
        soonify_steps context steps' results (tasks ++ [task])
          (log ++ [LogInfo ("Skipping step " +:+ id step_to_run);
                   Soonify task])
      else
        match evaluate_run_args (args step_to_run) results with
        | Raise e => (Raise e, log)
        | Return step_args =>
            let task := CallRun (step step_to_run) [] step_args in
            soonify_steps context steps' results (tasks ++ [task])
                          (log ++ [Soonify task])
        end
  end.

Definition unwrap {A} (steps_to_run : OneOrMany A) : list A :=
  match steps_to_run with
  | One a => [a]
  | Many l => l
  end.

Fixpoint new_run_steps (context : PipelineContext)
    (runnables : list (OneOrMany Runnable))
    (results : gmap string StepResult) (fail_fast : bool)
    (log : list StepEvent)
  : Result (gmap string StepResult) * list StepEvent :=
  let log :=
    if negb (Nat.eqb (length runnables) 0) && Nat.eqb (size results) 0
    then pretty_log_steps_tree context runnables log
    else log in
  match runnables with
  | [] => (Return results, log)
  | steps_to_run :: remaining_steps =>
      if fail_fast && any_failure results
      then (Return (skip_all runnables ∪ results), log)
      else
        let steps_to_run := unwrap steps_to_run in
        match soonify_steps context steps_to_run results [] log with
        | (Raise e, log') => (Raise e, log')
        | (Return tasks, log') =>
            match gather tasks with
            | Raise e => (Raise e, log')
            | Return values =>
                let new_results :=
                  dict_of (zip (map id steps_to_run) values) in
                new_run_steps context remaining_steps
                              (new_results ∪ results) fail_fast log'
            end
        end
  end.

(** The loop that fills [skipped_results] in [run_steps]: a tuple gives
    [step_and_run_args[0].skip()], anything else is asked for its own
    [skip], which a list does not have. *)
Fixpoint skip_each (steps_and_run_args : list (OneOrMany StepAndArgs))
    (skipped_results : list StepResult) : Result (list StepResult) :=
  match steps_and_run_args with
  | [] => Return skipped_results
  | One (WithArgs s _) :: rest => skip_each rest (skipped_results ++ [skip s])
  | One (Bare s) :: rest => skip_each rest (skipped_results ++ [skip s])
  | Many _ :: _ =>
      Raise (AttributeError "'list' object has no attribute 'skip'")
  end.

Definition step_of (step : StepAndArgs) : Step :=
  match step with
  | Bare s => s
  | WithArgs s _ => s
  end.

Definition call_of (step : StepAndArgs) : Call :=
  match step with
  | Bare s => CallRun s [] ∅
  | WithArgs s run_args => CallRun s run_args ∅
  end.

Fixpoint run_steps (steps_and_run_args : list (OneOrMany StepAndArgs))
    (results : list StepResult) (log : list StepEvent)
  : Result (list StepResult) * list StepEvent :=
  match steps_and_run_args with
  | [] => (Return results, log)
  | steps_to_run :: remaining_steps =>
      if existsb is_failure results
      then
        match skip_each steps_and_run_args [] with
        | Raise e => (Raise e, log)
        | Return skipped_results => (Return (results ++ skipped_results), log)
        end
      else
        let tasks := map call_of (unwrap steps_to_run) in
        let log' := log ++ map Soonify tasks in
        match gather tasks with
        | Raise e => (Raise e, log')
        | Return new_results =>
            run_steps remaining_steps (results ++ new_results) log'
        end
  end.

(** Observations on what the runners did. *)
Definition scheduled (log : list StepEvent) : list Call :=
  omap (fun e => match e with Soonify c => Some c | _ => None end) log.

Definition infos (log : list StepEvent) : list string :=
  omap (fun e => match e with LogInfo m => Some m | _ => None end) log.

Definition called_step (c : Call) : Step :=
  match c with
  | CallRun s _ _ => s
  | CallAsyncSkip s _ => s
  end.

Definition is_run (c : Call) : bool :=
  match c with
  | CallRun _ _ _ => true
  | CallAsyncSkip _ _ => false
  end.

Definition flatten {A} (items : list (OneOrMany A)) : list A :=
  flat_map unwrap items.

(** What the task loop of one item does, whether or not the computing of
    an argument raises: the tasks it hands over are, in order, for the
    steps of the item (for all of them when it goes through), a step whose
    id the user skips gets [async_skip("Skipped by user")] and a log line,
    any other step gets [run] with the arguments computed from the results
    of the earlier items. *)
Definition task_for (context : PipelineContext)
    (results : gmap string StepResult) (r : Runnable) (c : Call) : Prop :=
  if bool_decide (id r ∈ skip_steps context)
  then c = CallAsyncSkip (step r) "Skipped by user"
  else exists kwargs,
         evaluate_run_args (args r) results = Return kwargs /\
         c = CallRun (step r) [] kwargs.

End Steps.

(** ** A concrete source *)

(** The collaborators that the stream module imports are not part of it;
  the examples below run the stream against small stand-ins for them. *)
Module Scenario.

Definition ends_with (suffix s : string) : bool :=
  String.eqb
    (String.substring (String.length s - String.length suffix)
               (String.length suffix) s)
    suffix.

(** A glob of the form [*suffix] matches the URIs that end with
    [suffix]; any other glob matches the URI equal to it. *)
Definition glob_matches (glob u : string) : bool :=
  match glob with
  | String "*"%char suffix => ends_with suffix u
  | _ => String.eqb glob u
  end.

(** Modelled from the spec: [RemoteFileCatalog.listMatching(globs,
    minModified)], the stream reader, which is not in the module.  It
    lists, in catalog order, the files matching one of the globs that
    were modified at or after [minModified] when that bound is given. *)
Definition catalog_reader (catalog : list RemoteFile)
  : AbstractFileBasedStreamReader :=
  {| list_matching_files := fun globs start =>
       List.filter
         (fun f =>
            existsb (fun g => glob_matches g (uri f)) globs
            && match start with
               | None => true
               | Some t => t <=? last_modified f
               end)
         catalog |}.

Definition file_type_of_tag (tag : string) : option FileType :=
  if String.eqb tag "avro" then Some Avro
  else if String.eqb tag "csv" then Some Csv
  else if String.eqb tag "jsonl" then Some Jsonl
  else if String.eqb tag "parquet" then Some Parquet
  else None.

Fixpoint strings_of (l : list Value) : option (list string) :=
  match l with
  | [] => Some []
  | VStr s :: l' => cons s <$> strings_of l'
  | _ => None
  end.

Definition invalid (field : string) : Exception :=
  Exc OtherException ("validation error for field " +:+ field) None.

(** Modelled from the spec: construction of a [StreamConfiguration] from
    a raw mapping (the class [FileBasedStreamConfig] is not in the
    module).  It fails on a missing or ill-typed field and on an unknown
    file-type tag. *)
Definition FileBasedStreamConfig (raw : AnyMapping) : Result Config.t :=
  match raw !! "name", raw !! "file_type", raw !! "validation_policy" with
  | Some (VStr name), Some (VStr tag), Some (VStr policy) =>
      match file_type_of_tag tag with
      | None => Raise (invalid "file_type")
      | Some ft =>
          match raw !! "globs" with
          | Some (VList l) =>
              match strings_of l with
              | None => Raise (invalid "globs")
              | Some globs =>
                  match raw !! "input_schema" with
                  | None | Some VNone =>
                      Return {| Config.name := name;
                                Config.file_type := ft;
                                Config.globs := globs;
                                Config.validation_policy := policy;
                                Config.input_schema := None;
                                Config.primary_key := None |}
                  | Some (VDict m) =>
                      Return {| Config.name := name;
                                Config.file_type := ft;
                                Config.globs := globs;
                                Config.validation_policy := policy;
                                Config.input_schema := Some m;
                                Config.primary_key := None |}
                  | Some _ => Raise (invalid "input_schema")
                  end
              end
          | _ => Raise (invalid "globs")
          end
      end
  | Some (VStr _), Some (VStr _), _ => Raise (invalid "validation_policy")
  | Some (VStr _), _, _ => Raise (invalid "file_type")
  | _, _, _ => Raise (invalid "name")
  end.

(** A parser that cannot read [bad.csv]; every other file has one
    string column named after the file, and holds two rows. *)
Definition csv_parser : FileTypeParser :=
  {| infer_schema_of := fun f _ =>
       if String.eqb (uri f) "bad.csv"
       then Raise (Exc OtherException "malformed header" None)
       else Return {[ uri f := VStr "string" ]};
     parse_records := fun f _ =>
       ([ {[ "x" := VInt (last_modified f) ]};
          {[ "x" := VStr (uri f) ]} ], None) |}.

Definition no_parser : FileTypeParser :=
  {| infer_schema_of := fun _ _ =>
       Raise (Exc OtherException "unsupported" None);
     parse_records := fun _ _ =>
       ([], Some (Exc OtherException "unsupported" None)) |}.

(** Stand-ins for [merge_schemas] (fields of both schemas, the left one
    winning) and [type_mapping_to_jsonschema]. *)
Definition merge_schemas (a b : Schema) : Schema := a ∪ b.

Definition type_mapping_to_jsonschema (m : AnyMapping) : Schema :=
  {[ "type" := VStr "object"; "properties" := VDict m ]}.

(** A validation policy that, unless it is ["emit_record"], accepts only
    records whose field [x] is an integer. *)
Definition record_passes_validation_policy (policy : string)
    (record : AnyMapping) (schema : Schema) : bool :=
  String.eqb policy "emit_record"
  || match record !! "x" with
     | Some (VInt _) => true
     | _ => false
     end.

Definition file (u : string) (t : Z) : RemoteFile :=
  {| uri := u; last_modified := t; file_type := Csv |}.

Definition raw (policy : string) (extra : AnyMapping) : AnyMapping :=
  <[ "name" := VStr "orders" ]>
    (<[ "file_type" := VStr "csv" ]>
       (<[ "globs" := VList [VStr "*.csv"] ]>
          (<[ "validation_policy" := VStr policy ]> extra))).

Definition policy (n k : Z) : AbstractDiscoveryPolicy :=
  {| n_concurrent_requests := n; max_n_files_for_schema_inference := k |}.

Definition stream_config (validation : string)
    (declared : option AnyMapping) : Config.t :=
  {| Config.name := "orders";
     Config.file_type := Csv;
     Config.globs := ["*.csv"];
     Config.validation_policy := validation;
     Config.input_schema := declared;
     Config.primary_key := None |}.

Definition stream (validation : string) (declared : option AnyMapping)
    (catalog : list RemoteFile) (n k : Z) : FileBasedStream :=
  {| config := stream_config validation declared;
     _catalog_schema := Some ∅;
     _stream_reader := catalog_reader catalog;
     _discovery_policy := policy n k |}.

Definition declared : AnyMapping := {[ "a" := VStr "string" ]}.

Definition two_files : list RemoteFile := [file "a.csv" 1; file "c.csv" 3].

Definition with_a_bad_file : list RemoteFile :=
  [file "a.csv" 1; file "bad.csv" 2; file "c.csv" 3].

Definition around_the_cursor : list RemoteFile :=
  [file "t4.csv" 4; file "t5.csv" 5; file "t6.csv" 6].

Definition six_files : list RemoteFile :=
  [file "a.csv" 1; file "b.csv" 5; file "c.csv" 5; file "d.csv" 0;
   file "e.csv" 7; file "notes.txt" 9].
End Scenario.

(** ** More stand-ins for the collaborators of the stream *)

Module Cases.

(** A parser whose generator breaks on [bad.csv] after the first row. *)
Definition flaky_parser : FileTypeParser :=
  {| infer_schema_of := infer_schema_of Scenario.csv_parser;
     parse_records := fun f _ =>
       if String.eqb (uri f) "bad.csv"
       then ([ {[ "x" := VInt (last_modified f) ]} ],
             Some (Exc OtherException "truncated file" None))
       else ([ {[ "x" := VInt (last_modified f) ]};
               {[ "x" := VStr (uri f) ]} ], None) |}.

(** A merge that keeps the fields of both schemas and marks a field they
    share as mixed; the order in which schemas are merged in does not
    matter to it. *)
Definition merge_fields (a b : Schema) : Schema :=
  union_with (fun _ _ => Some (VStr "mixed")) a b.

End Cases.

(** ** A pipeline of steps to run the runners on *)

Module Pipeline.
Import Steps.

Definition result_of (s : StepStatus) (out : string) : StepResult :=
  {| status := s; stdout := out |}.

(** A step whose [run] ends with the given status whatever it is given,
    and whose skipped results carry its name. *)
Definition step_ending (s : StepStatus) (name : string) : Step :=
  {| run := fun _ _ => Return (result_of s name);
     skip := result_of SKIPPED name;
     async_skip := fun reason => result_of SKIPPED (name +:+ ": " +:+ reason) |}.

Definition build : Step := step_ending SUCCESS "build".
Definition unit_tests : Step := step_ending SUCCESS "unit".
Definition broken_tests : Step := step_ending FAILURE "unit".
Definition lint : Step := step_ending SUCCESS "lint".
Definition publish : Step := step_ending SUCCESS "publish".

(** Keyword arguments computed from the result of the build. *)
Definition after_build : RunArgs :=
  ArgsCallable (fun results =>
    match results !! "build" with
    | Some r => Return {[ "image" := VStr (stdout r) ]}
    | None => Raise (Exc OtherException "KeyError: 'build'" None)
    end).

Definition context : PipelineContext := {| skip_steps := ["lint"] |}.

Definition checks (tests : Step) : list Runnable :=
  [ {| id := "unit"; step := tests; args := after_build |};
    {| id := "lint"; step := lint; args := ArgsDict ∅ |} ].

Definition runnables (tests : Step) : list (OneOrMany Runnable) :=
  [ One {| id := "build"; step := build; args := ArgsDict ∅ |};
    Many (checks tests);
    One {| id := "publish"; step := publish; args := after_build |} ].

Definition steps_and_run_args (tests : Step)
  : list (OneOrMany StepAndArgs) :=
  [ One (Bare build);
    Many [WithArgs tests [VStr "fast"]; Bare lint];
    One (WithArgs publish [VInt 1]) ].

End Pipeline.

(** * The stream *)

Section Stream.

(** Collaborators imported by the module: the four parser classes, the
    schema helpers, the validation predicate and the constructor of the
    stream configuration. *)
Variables AvroParser CsvParser JsonlParser ParquetParser : FileTypeParser.
Variable merge_schemas : Schema -> Schema -> Schema.
Variable type_mapping_to_jsonschema : AnyMapping -> Schema.
Variable record_passes_validation_policy :
  string -> AnyMapping -> Schema -> bool.
Variable FileBasedStreamConfig : AnyMapping -> Result Config.t.

Definition __init__ (raw_config : AnyMapping)
    (stream_reader : AbstractFileBasedStreamReader)
    (discovery_policy : AbstractDiscoveryPolicy) : Result FileBasedStream :=
  match FileBasedStreamConfig raw_config with
  | Raise exc =>
      Raise (Exc ConfigValidationError
                 "Error creating stream config object." (Some exc))
  | Return c =>
      Return {| config := c;
                _catalog_schema := Some ∅;
                _stream_reader := stream_reader;
                _discovery_policy := discovery_policy |}
  end.

Definition primary_key (self : FileBasedStream) : option (list string) :=
  Config.primary_key (config self).

Definition name (self : FileBasedStream) : string :=
  Config.name (config self).

Definition _get_parser (file_type : FileType) : FileTypeParser :=
  match file_type with
  | Avro => AvroParser
  | Csv => CsvParser
  | Jsonl => JsonlParser
  | Parquet => ParquetParser
  end.

(** *** Schema inference *)

(** The coroutine run by one task; its value is what [task.result()]
    returns or raises. *)
Definition _infer_file_schema (self : FileBasedStream) (file : RemoteFile)
  : Result Schema :=
  match infer_schema_of (_get_parser (Config.file_type (config self)))
                        file (_stream_reader self) with
  | Return s => Return s
  | Raise exc =>
      Raise (Exc SchemaInferenceError
                 ("Error inferring schema for file: " +:+ uri file)
                 (Some exc))
  end.

Definition task_result (self : FileBasedStream) (task : Task)
  : Result Schema :=
  _infer_file_schema self (task_file task).

(** The inner [while]: top up [pending_tasks] from the iterator. *)
Fixpoint top_up (self : FileBasedStream) (files : list RemoteFile)
    (pending_tasks : list Task) (n_started : nat)
  : M (list RemoteFile * list Task * nat) :=
  if Z.of_nat (length pending_tasks)
     <=? n_concurrent_requests (_discovery_policy self)
  then
    match files with
    | [] => mret ([], pending_tasks, n_started)
    | file :: files' =>
        task ← create_task file;
        top_up self files' (pending_tasks ++ [task]) (S n_started)
    end
  else mret (files, pending_tasks, n_started).

(** [for task in done: base_schema = merge_schemas(base_schema,
    task.result())]. *)
Fixpoint merge_done (self : FileBasedStream) (done : list Task)
    (base_schema : Schema) : Result Schema :=
  match done with
  | [] => Return base_schema
  | task :: done' =>
      match task_result self task with
      | Return s => merge_done self done' (merge_schemas base_schema s)
      | Raise e => Raise e
      end
  end.

(** The outer [while] of [_infer_schema]; each round consumes one
    [Completion] of the schedule (a schedule that runs out means: the
    first pending task completes alone). *)
Fixpoint _infer_schema_loop (fuel : nat) (self : FileBasedStream)
    (sched : Schedule) (files : list RemoteFile)
    (pending_tasks : list Task) (n_started n_files : nat)
    (base_schema : Schema) : M Schema :=
  if negb (Nat.eqb (length pending_tasks) 0) || (n_started <? n_files)%nat
  then
    match fuel with
    | O => fun _ => None
    | S fuel' =>
        '(files1, pending1, n_started1) ←
          top_up self files pending_tasks n_started;
        '(done, pending2) ← asyncio_wait (hd (O, []) sched) pending1;
        match merge_done self done base_schema with
        | Raise e => raise e
        | Return base_schema' =>
            _infer_schema_loop fuel' self (tl sched) files1 pending2
                               n_started1 n_files base_schema'
        end
    end
  else mret base_schema.

Definition _infer_schema (self : FileBasedStream) (sched : Schedule)
    (files : list RemoteFile) : M Schema :=
  _infer_schema_loop (length files) self sched files [] O (length files) ∅.

(** [loop.run_until_complete(self._infer_schema(files))]. *)
Definition infer_schema (self : FileBasedStream) (sched : Schedule)
    (files : list RemoteFile) : M Schema :=
  _infer_schema self sched files.

(** *** Listing and schema discovery *)

Definition set_list_files_cache (files : list RemoteFile) : M unit :=
  fun w => Some (Return tt,
            {| trace := trace w;
               get_json_schema_cache := get_json_schema_cache w;
               list_files_cache := Some files;
               loop_tasks := loop_tasks w;
               next_task_id := next_task_id w |}).

Definition set_get_json_schema_cache (schema : Schema) : M unit :=
  fun w => Some (Return tt,
            {| trace := trace w;
               get_json_schema_cache := Some schema;
               list_files_cache := list_files_cache w;
               loop_tasks := loop_tasks w;
               next_task_id := next_task_id w |}).

(** The body of [list_files], without the decorator. *)
Definition list_files__wrapped__ (self : FileBasedStream)
  : M (list RemoteFile) :=
  emit (EvListMatchingFiles (Config.globs (config self)) None);;
  mret (list_matching_files (_stream_reader self)
                            (Config.globs (config self)) None).

(** [@cache]: a hit returns the stored value and runs nothing; a miss runs
    the body and stores its value if it returns (an exception is not
    cached). *)
Definition list_files (self : FileBasedStream) : M (list RemoteFile) :=
  fun w =>
    match list_files_cache w with
    | Some files => Some (Return files, w)
    | None =>
        (files ← list_files__wrapped__ self;
         set_list_files_cache files;;
         mret files : M (list RemoteFile)) w
    end.

Definition get_json_schema__wrapped__ (self : FileBasedStream)
    (sched : Schedule) : M Schema :=
  if truthy (Config.input_schema (config self))
  then mret (type_mapping_to_jsonschema
               (default ∅ (Config.input_schema (config self))))
  else
    files ← list_files self;
    let max_n_files_for_schema_inference :=
      max_n_files_for_schema_inference (_discovery_policy self) in
    if Z.of_nat (length files) >? max_n_files_for_schema_inference
    then
      let files :=
        slice_to max_n_files_for_schema_inference
                 (sorted_reverse last_modified files) in
      emit (EvWarning (RefusingToInfer (length files)
                                       max_n_files_for_schema_inference));;
      infer_schema self sched files
    else infer_schema self sched files.

Definition get_json_schema (self : FileBasedStream) (sched : Schedule)
  : M Schema :=
  fun w =>
    match get_json_schema_cache w with
    | Some schema => Some (Return schema, w)
    | None =>
        (schema ← get_json_schema__wrapped__ self sched;
         set_get_json_schema_cache schema;;
         mret schema : M Schema) w
    end.

(** *** Files of one sync *)

Definition _get_datetime_from_stream_state (self : FileBasedStream)
    (stream_state : option AnyMapping) : option Z :=
  None.

(** Returns the reader's iterable; the listing call is made here. *)
Definition list_files_for_this_sync (self : FileBasedStream)
    (stream_state : option AnyMapping) (w : World)
  : list RemoteFile * World :=
  let start := _get_datetime_from_stream_state self stream_state in
  (list_matching_files (_stream_reader self)
                       (Config.globs (config self)) start,
   record_event (EvListMatchingFiles (Config.globs (config self)) start) w).

(** *** Record extraction *)

(** A generator run to its end: the records it yielded, in order, and the
    exception that ended it ([None] for normal exhaustion). *)
Definition Generated : Type := list AnyMapping * option Exception.

Definition logging_warning (r : LogRecord) (w : World) : World :=
  record_event (EvWarning r) w.

(** The inner [for record in parser.parse_records(...)], over the records
    the parser emits; [yielded] accumulates the output so far. *)
Fixpoint for_record_in (self : FileBasedStream) (schema : Schema)
    (records : list AnyMapping) (yielded : list AnyMapping) (w : World)
  : list AnyMapping * World :=
  match records with
  | [] => (yielded, w)
  | record :: records' =>
      if negb (record_passes_validation_policy
                 (Config.validation_policy (config self)) record schema)
      then
        for_record_in self schema records' yielded
                      (logging_warning (RecordDidNotPass record) w)
      else for_record_in self schema records' (yielded ++ [record]) w
  end.

(** The outer [for file in ...]: a parser that raises ends the
    generator with what was yielded before. *)
Fixpoint for_file_in (self : FileBasedStream) (parser : FileTypeParser)
    (schema : Schema) (files : list RemoteFile)
    (yielded : list AnyMapping) (w : World) : Generated * World :=
  match files with
  | [] => ((yielded, None), w)
  | file :: files' =>
      let '(records, exc) := parse_records parser file (_stream_reader self) in
      let '(yielded', w') := for_record_in self schema records yielded w in
      match exc with
      | Some e => ((yielded', Some e), w')
      | None => for_file_in self parser schema files' yielded' w'
      end
  end.

Definition read_records (self : FileBasedStream) (sync_mode : SyncMode)
    (cursor_field : option (list string))
    (stream_slice stream_state : option AnyMapping)
    (w : World) : Generated * World :=
  match _catalog_schema self with
  | None =>
      (([], Some (Exc MissingSchemaError
        "Expected `json_schema` in the configured catalog but it is missing."
        None)), w)
  | Some schema =>
      let parser := _get_parser (Config.file_type (config self)) in
      let '(files, w') := list_files_for_this_sync self stream_state w in
      for_file_in self parser schema files [] w'
  end.

(** The validation gate applied to the records of this stream. *)
Definition accepts (self : FileBasedStream) (schema : Schema)
    (record : AnyMapping) : bool :=
  record_passes_validation_policy
    (Config.validation_policy (config self)) record schema.

(** *** Two sentences of the specification, word for word *)

(** "If the inference of any single file fails, the whole call fails
    with a SchemaInferenceError identifying the offending file URI, and
    in-flight sibling operations are cancelled": after the failure no
    task of the call is left in the event loop. *)
Definition fails_fast_and_cancels (self : FileBasedStream)
    (sched : Schedule) (files : list RemoteFile) (w : World) : Prop :=
  forall file exc0,
    file ∈ files ->
    infer_schema_of (_get_parser (Config.file_type (config self)))
                    file (_stream_reader self) = Raise exc0 ->
    exists bad exc w',
      bad ∈ files /\
      _infer_schema self sched files w
      = Some (Raise (Exc SchemaInferenceError
                         ("Error inferring schema for file: " +:+ uri bad)
                         (Some exc)), w') /\
      loop_tasks w' = loop_tasks w.

(** "When the stream configuration carries a user-declared schema,
    inference is skipped entirely and that schema, converted, is
    returned immediately." *)
Definition declared_schema_short_circuits (self : FileBasedStream)
    (sched : Schedule) (w : World) : Prop :=
  forall m,
    Config.input_schema (config self) = Some m ->
    exists w',
      get_json_schema self sched w
      = Some (Return (type_mapping_to_jsonschema m), w') /\
      trace w' = trace w.

(** *** The worlds of a stream instance *)

(** The world at construction, and every world reached from it by calls
    of the public methods of the instance. *)
Inductive reachable (self : FileBasedStream) : World -> Prop :=
  | reachable_fresh : reachable self fresh_world
  | reachable_get_json_schema sched w r w' :
      reachable self w ->
      get_json_schema self sched w = Some (r, w') ->
      reachable self w'
  | reachable_list_files w r w' :
      reachable self w ->
      list_files self w = Some (r, w') ->
      reachable self w'
  | reachable_read_records sync_mode cursor_field stream_slice stream_state
                           w g w' :
      reachable self w ->
      read_records self sync_mode cursor_field stream_slice stream_state w
      = (g, w') ->
      reachable self w'.

Implicit Types (self : FileBasedStream) (files : list RemoteFile)
         (pending : list Task) (w : World).

(** * Properties *)

(** ** The monad *)

Lemma bind_return {A B} (m : M A) (k : A -> M B) w a w' :
  m w = Some (Return a, w') -> (m ≫= k) w = k a w'.
Proof. intros H. unfold mbind, M_bind. by rewrite H. Qed.

Lemma bind_raise {A B} (m : M A) (k : A -> M B) w e w' :
  m w = Some (Raise e, w') -> (m ≫= k) w = Some (Raise e, w').
Proof. intros H. unfold mbind, M_bind. by rewrite H. Qed.

Lemma inferred_files_app tr1 tr2 :
  inferred_files (tr1 ++ tr2) = inferred_files tr1 ++ inferred_files tr2.
Proof. apply omap_app. Qed.

Lemma awaits_app tr1 tr2 : awaits (tr1 ++ tr2) = awaits tr1 ++ awaits tr2.
Proof. apply omap_app. Qed.

Lemma listings_app tr1 tr2 :
  listings (tr1 ++ tr2) = listings tr1 ++ listings tr2.
Proof. apply omap_app. Qed.

Lemma inferred_files_launch l : inferred_files (map EvInferFile l) = l.
Proof.
  unfold inferred_files. induction l as [|f l IH]; [done|]. cbn. by f_equal.
Qed.

Lemma awaits_launch l : awaits (map EvInferFile l) = [].
Proof. induction l as [|f l IH]; [done|]. by cbn. Qed.

Lemma listings_launch l : listings (map EvInferFile l) = [].
Proof. induction l as [|f l IH]; [done|]. by cbn. Qed.

(** ** The scheduler always reports a non-empty part of what it was given *)

Lemma take_nth_perm {A} i (l : list A) x r :
  take_nth i l = Some (x, r) -> x :: r ≡ₚ l.
Proof.
  revert i x r. induction l as [|y l IH]; intros i x r H; [done|].
  destruct i as [|i]; cbn in H.
  - by inversion H.
  - destruct (take_nth i l) as [[z r']|] eqn:E; [|done].
    inversion H; subst. rewrite Permutation_swap. f_equiv. by eapply IH.
Qed.

Lemma take_nth_lt {A} i (l : list A) :
  (i < length l)%nat -> is_Some (take_nth i l).
Proof.
  revert i. induction l as [|y l IH]; intros i Hi; cbn in Hi; [lia|].
  destruct i as [|i]; cbn; [by eexists|].
  destruct (IH i) as [[z r] ->]; [lia|]. by eexists.
Qed.

Lemma pick_is_Some {A} k (l : list A) : l <> [] -> is_Some (pick k l).
Proof.
  intros Hl. apply take_nth_lt. apply Nat.mod_upper_bound.
  by destruct l.
Qed.

Lemma pick_more_perm {A} ks (done pending done' pending' : list A) :
  pick_more ks done pending = (done', pending') ->
  done' ++ pending' ≡ₚ done ++ pending /\ (length done <= length done')%nat.
Proof.
  revert done pending.
  induction ks as [|k ks IH]; intros done pending H; cbn in H.
  - inversion H; subst. split; [done|lia].
  - destruct (pick k pending) as [[t rest]|] eqn:E.
    + apply IH in H as [Hp Hl]. apply take_nth_perm in E.
      split.
      * rewrite Hp, <- E, <- app_assoc. done.
      * rewrite length_app in Hl. lia.
    + inversion H; subst. split; [done|lia].
Qed.

Lemma asyncio_wait_spec c (fs : list Task) w :
  fs <> [] ->
  exists done pending w',
    asyncio_wait c fs w = Some (Return (done, pending), w') /\
    done <> [] /\
    done ++ pending ≡ₚ fs /\
    trace w' = trace w ++ [EvAwait (length fs)] /\
    same_caches w w'.
Proof.
  intros Hfs. unfold asyncio_wait.
  destruct (pick_is_Some (fst c) fs Hfs) as [[t rest] E]. rewrite E.
  destruct (pick_more (snd c) [t] rest) as [done pending] eqn:Em.
  apply pick_more_perm in Em as [Hp Hl]. apply take_nth_perm in E.
  eexists done, pending, _. split; [reflexivity|]. cbn.
  repeat split.
  - destruct done; [cbn in Hl; lia | done].
  - by rewrite Hp.
Qed.

(** Conversely every non-empty selection of the awaited tasks, in every
    order, is reported under some [Completion]: quantifying over schedules
    covers every behaviour of the event loop. *)
Lemma take_nth_middle {A} (l1 l2 : list A) x :
  take_nth (length l1) (l1 ++ x :: l2) = Some (x, l1 ++ l2).
Proof. induction l1 as [|y l1 IH]; cbn; [done|]. by rewrite IH. Qed.

Lemma pick_complete {A} (l : list A) x :
  x ∈ l -> exists k r, pick k l = Some (x, r) /\ x :: r ≡ₚ l.
Proof.
  intros Hin. apply list_elem_of_split in Hin as (l1 & l2 & ->).
  exists (length l1), (l1 ++ l2). unfold pick.
  rewrite Nat.mod_small by (rewrite length_app; cbn; lia).
  split; [apply take_nth_middle|]. by rewrite Permutation_middle.
Qed.

Lemma pick_more_complete {A} (more done pool rest : list A) :
  more ++ rest ≡ₚ pool ->
  exists ks pool',
    pick_more ks done pool = (done ++ more, pool') /\ pool' ≡ₚ rest.
Proof.
  revert done pool. induction more as [|x more IH]; intros done pool Hp.
  - exists [], pool. by rewrite app_nil_r.
  - destruct (pick_complete pool x) as (k & r & Hk & Hr).
    { rewrite <- Hp. by left. }
    destruct (IH (done ++ [x]) r) as (ks & pool' & Hks & Hrest).
    { apply (Permutation_cons_inv (a := x)). by rewrite Hr. }
    exists (k :: ks), pool'. cbn. rewrite Hk, Hks, <- app_assoc. done.
Qed.

Lemma asyncio_wait_complete (fs : list Task) t more rest w :
  (t :: more) ++ rest ≡ₚ fs ->
  exists c pending w',
    asyncio_wait c fs w = Some (Return (t :: more, pending), w') /\
    pending ≡ₚ rest.
Proof.
  intros Hp. destruct (pick_complete fs t) as (k & r & Hk & Hr).
  { rewrite <- Hp. by left. }
  destruct (pick_more_complete more [t] r rest) as (ks & pending & Hks & Hrest).
  { apply (Permutation_cons_inv (a := t)). by rewrite Hr. }
  exists (k, ks), pending. unfold asyncio_wait. cbn [fst snd].
  rewrite Hk, Hks. by eexists.
Qed.

Lemma asyncio_wait_empty c w :
  exists e, asyncio_wait c [] w = Some (Raise e, w) /\ exc_class e = ValueError.
Proof. by eexists. Qed.

(** ** Python's [sorted(..., reverse=True)] *)

Section Sorted.
Context {A : Type} (key : A -> Z).

Lemma insert_desc_perm x (l : list A) : insert_desc key x l ≡ₚ x :: l.
Proof.
  induction l as [|y l IH]; cbn; [done|].
  destruct (key x <? key y); [|done].
  by rewrite IH, Permutation_swap.
Qed.

Lemma sorted_reverse_cons x (l : list A) :
  sorted_reverse key (x :: l) = insert_desc key x (sorted_reverse key l).
Proof. reflexivity. Qed.

Lemma sorted_reverse_perm (l : list A) : sorted_reverse key l ≡ₚ l.
Proof.
  induction l as [|x l IH]; [done|].
  by rewrite sorted_reverse_cons, insert_desc_perm, IH.
Qed.

Lemma sorted_reverse_length (l : list A) :
  length (sorted_reverse key l) = length l.
Proof. by rewrite sorted_reverse_perm. Qed.

(** Sorting commutes with a map that respects the key. *)
Lemma insert_desc_fmap {B} (f : B -> A) x (l : list B) :
  map f (insert_desc (key ∘ f) x l) = insert_desc key (f x) (map f l).
Proof.
  induction l as [|y l IH]; cbn; [done|].
  destruct (key (f x) <? key (f y)); cbn; [by rewrite IH|done].
Qed.

Lemma sorted_reverse_fmap {B} (f : B -> A) (l : list B) :
  map f (sorted_reverse (key ∘ f) l) = sorted_reverse key (map f l).
Proof.
  induction l as [|x l IH]; [done|].
  cbn [map]. rewrite sorted_reverse_cons, <- IH, <- insert_desc_fmap.
  reflexivity.
Qed.
End Sorted.

Lemma enumerate_from_snd {A} i (l : list A) : map snd (enumerate_from i l) = l.
Proof.
  revert i. induction l as [|x l IH]; intros i; cbn; [done|]. by rewrite IH.
Qed.

Lemma enumerate_from_fst {A} i (l : list A) :
  map fst (enumerate_from i l) = seq i (length l).
Proof.
  revert i. induction l as [|x l IH]; intros i; cbn; [done|]. by rewrite IH.
Qed.

Lemma elem_of_enumerate_from {A} i (l : list A) j x :
  (j, x) ∈ enumerate_from i l <-> (i <= j)%nat /\ l !! (j - i)%nat = Some x.
Proof.
  revert i. induction l as [|y l IH]; intros i; cbn.
  - rewrite elem_of_nil. split; [done|]. by intros [_ ?].
  - rewrite elem_of_cons, IH. split.
    + intros [[= -> ->]|[Hle Hl]].
      * split; [lia|]. by rewrite Nat.sub_diag.
      * split; [lia|]. by replace (j - i)%nat with (S (j - S i)) by lia.
    + intros [Hle Hl]. destruct (decide (j = i)) as [->|Hne].
      * rewrite Nat.sub_diag in Hl. cbn in Hl. left. congruence.
      * right. split; [lia|].
        by replace (j - i)%nat with (S (j - S i)) in Hl by lia.
Qed.

Lemma elem_of_enumerate {A} (l : list A) j x :
  (j, x) ∈ enumerate l <-> l !! j = Some x.
Proof.
  unfold enumerate. rewrite elem_of_enumerate_from, Nat.sub_0_r.
  split; [by intros [_ ?]|]. split; [lia|done].
Qed.

Lemma enumerate_from_increasing {A} i (l : list A) :
  StronglySorted (fun p q : nat * A => (p.1 < q.1)%nat) (enumerate_from i l).
Proof.
  revert i. induction l as [|x l IH]; intros i; cbn; constructor; [done|].
  apply Forall_forall. intros [j y] Hin.
  apply elem_of_enumerate_from in Hin as [Hle _]. cbn. lia.
Qed.

(** Stability: on a list given with its positions, the sort puts every
    item before all those it is [preferred] to. *)
Lemma insert_desc_preferred p (l : list (nat * RemoteFile)) :
  StronglySorted preferred l ->
  Forall (fun q => (p.1 < q.1)%nat) l ->
  StronglySorted preferred (insert_desc (last_modified ∘ snd) p l).
Proof.
  induction l as [|y l IH]; intros Hs Hp; cbn.
  - by repeat constructor.
  - apply StronglySorted_cons in Hs as [Hy Hs].
    apply Forall_cons in Hp as [Hpy Hp].
    destruct (Z.ltb_spec (last_modified p.2) (last_modified y.2)) as [Hlt|Hge].
    + apply StronglySorted_cons. split; [|by apply IH].
      apply Forall_forall. intros q Hq.
      rewrite insert_desc_perm in Hq. apply elem_of_cons in Hq as [->|Hq].
      * by left.
      * rewrite Forall_forall in Hy. by apply Hy.
    + apply StronglySorted_cons. split; [|by apply StronglySorted_cons].
      apply Forall_cons. split.
      * unfold preferred. lia.
      * rewrite Forall_forall in Hy, Hp |- *. intros q Hq.
        specialize (Hy q Hq). specialize (Hp q Hq).
        unfold preferred in *. lia.
Qed.

Lemma sorted_reverse_preferred (l : list (nat * RemoteFile)) :
  StronglySorted (fun p q => (p.1 < q.1)%nat) l ->
  StronglySorted preferred (sorted_reverse (last_modified ∘ snd) l).
Proof.
  induction l as [|p l IH]; intros Hs; [constructor|].
  apply StronglySorted_cons in Hs as [Hp Hs].
  rewrite sorted_reverse_cons.
  apply insert_desc_preferred; [by apply IH|].
  apply Forall_forall. intros q Hq.
  rewrite sorted_reverse_perm in Hq.
  rewrite Forall_forall in Hp. by apply Hp.
Qed.

(** The first [k] files of the sorted list are the [k] most preferred
    positions of the listing. *)
Lemma take_sorted_reverse (files : list RemoteFile) (k : nat) :
  (k <= length files)%nat ->
  exists chosen : list (nat * RemoteFile),
    take k (sorted_reverse last_modified files) = map snd chosen /\
    length chosen = k /\
    NoDup (map fst chosen) /\
    (forall i f, (i, f) ∈ chosen -> files !! i = Some f) /\
    StronglySorted preferred chosen /\
    (forall p j g, p ∈ chosen -> files !! j = Some g ->
                   j ∉ map fst chosen -> preferred p (j, g)).
Proof.
  intros Hk.
  set (sorted := sorted_reverse (last_modified ∘ snd) (enumerate files)).
  assert (sorted ≡ₚ enumerate files) as Hperm by apply sorted_reverse_perm.
  assert (StronglySorted preferred sorted) as Hsorted.
  { apply sorted_reverse_preferred, enumerate_from_increasing. }
  assert (map snd sorted = sorted_reverse last_modified files) as Hsnd.
  { unfold sorted. rewrite sorted_reverse_fmap. unfold enumerate.
    by rewrite enumerate_from_snd. }
  assert (NoDup (map fst sorted)) as Hnd.
  { rewrite Hperm. unfold enumerate. rewrite enumerate_from_fst.
    apply NoDup_seq. }
  rewrite <- (take_drop k sorted) in Hsorted, Hnd, Hperm.
  exists (take k sorted).
  split; [by rewrite <- Hsnd, <- fmap_take|].
  split.
  { rewrite length_take_le; [done|].
    unfold sorted. rewrite sorted_reverse_length. unfold enumerate.
    rewrite <- (length_map fst), enumerate_from_fst, length_seq. done. }
  rewrite fmap_app in Hnd. apply NoDup_app in Hnd as (Hnd1 & Hdisj & _).
  split; [done|].
  split.
  { intros i f Hin. apply elem_of_enumerate. rewrite <- Hperm.
    apply elem_of_app. by left. }
  split; [by eapply StronglySorted_app_1_l|].
  intros p j g Hp Hj Hnot.
  eapply StronglySorted_app_1_elem_of; [exact Hsorted|done|].
  apply elem_of_enumerate in Hj. rewrite <- Hperm in Hj.
  apply elem_of_app in Hj as [Hj|Hj]; [|done].
  exfalso. apply Hnot.
  by apply (list_elem_of_fmap_2 fst) in Hj.
Qed.

(** A failing file always fails with a [SchemaInferenceError] that carries
    its URI. *)
Lemma _infer_file_schema_raise self file e :
  _infer_file_schema self file = Raise e ->
  exists exc,
    e = Exc SchemaInferenceError
            ("Error inferring schema for file: " +:+ uri file) (Some exc).
Proof.
  unfold _infer_file_schema. destruct (infer_schema_of _ _ _); [done|].
  intros [= <-]. by eexists.
Qed.

(** What one run of the inner [while] does. *)
Lemma top_up_spec self files pending n_started w :
  exists launched files1 tasks w1,
    top_up self files pending n_started w
    = Some (Return (files1, pending ++ tasks,
                    (n_started + length launched)%nat), w1) /\
    files = launched ++ files1 /\
    map task_file tasks = launched /\
    trace w1 = trace w ++ map EvInferFile launched /\
    same_caches w w1 /\
    (files1 = [] \/
     n_concurrent_requests (_discovery_policy self)
     < Z.of_nat (length (pending ++ tasks))) /\
    Z.of_nat (length (pending ++ tasks))
    <= Z.max (Z.of_nat (length pending))
             (n_concurrent_requests (_discovery_policy self) + 1).
Proof.
  revert pending n_started w.
  induction files as [|file files IH]; intros pending n_started w; cbn.
  - exists [], [], [], w. rewrite !app_nil_r, Nat.add_0_r. cbn.
    split; [by destruct (_ <=? _)|].
    repeat split; auto. lia.
  - destruct (Z.leb_spec (Z.of_nat (length pending))
                (n_concurrent_requests (_discovery_policy self))) as [Hle|Hgt].
    + set (t := {| task_id := next_task_id w; task_file := file |}).
      set (w0 := {| trace := trace w ++ [EvInferFile file];
                    get_json_schema_cache := get_json_schema_cache w;
                    list_files_cache := list_files_cache w;
                    loop_tasks := loop_tasks w ++ [t];
                    next_task_id := S (next_task_id w) |}).
      destruct (IH (pending ++ [t]) (S n_started) w0)
        as (launched & files1 & tasks & w1 & Hrun & -> & Hmap & Htr & Hc
            & Hsat & Hb).
      exists (file :: launched), files1, (t :: tasks), w1.
      rewrite (bind_return _ _ w t w0) by done.
      rewrite Hrun. rewrite <- !app_assoc in *. cbn in *.
      rewrite Nat.add_succ_r.
      repeat split; auto.
      * by rewrite Hmap.
      * by rewrite Htr, <- app_assoc.
      * apply Hc.
      * apply Hc.
      * rewrite !length_app in *. cbn in *. lia.
    + exists [], (file :: files), [], w. rewrite !app_nil_r, Nat.add_0_r. cbn.
      do 5 (split; [done|]). split; [right; lia | lia].
Qed.

Lemma merge_done_return self done base base' :
  merge_done self done base = Return base' ->
  forall t, t ∈ done -> exists s, task_result self t = Return s.
Proof.
  revert base. induction done as [|d done IH]; intros base H t Ht.
  - by apply elem_of_nil in Ht.
  - cbn in H. destruct (task_result self d) as [s|e] eqn:E; [|done].
    apply elem_of_cons in Ht as [->|Ht]; [by eexists|]. by eapply IH.
Qed.

Lemma merge_done_raise self done base e :
  merge_done self done base = Raise e ->
  exists t, t ∈ done /\ task_result self t = Raise e.
Proof.
  revert base. induction done as [|d done IH]; intros base H; [done|].
  cbn in H. destruct (task_result self d) as [s|e'] eqn:E.
  - destruct (IH _ H) as (t & Ht & Hr). exists t. split; [by right|done].
  - inversion H; subst. exists d. split; [by left|done].
Qed.

(** The loop condition, given that [n_started] counts the files taken
    from the iterator. *)
Lemma loop_condition files pending n_started n_files :
  (n_started + length files = n_files)%nat ->
  negb (Nat.eqb (length pending) 0) || (n_started <? n_files)%nat = true
  <-> pending <> [] \/ files <> [].
Proof.
  intros Hinv. rewrite orb_true_iff, negb_true_iff, Nat.eqb_neq, Nat.ltb_lt.
  destruct pending, files; cbn in *; split; intros [?|?]; try lia; try done;
    auto; try (right; lia); try (left; lia).
Qed.

Lemma loop_exit fuel self sched n_files base w :
  _infer_schema_loop fuel self sched [] [] n_files n_files base w
  = Some (Return base, w).
Proof.
  destruct fuel; cbn -[Nat.ltb]; by rewrite Nat.ltb_irrefl.
Qed.

(** One round of the outer [while]. *)
Lemma loop_round fuel self sched files pending n_started n_files base w :
  0 <= n_concurrent_requests (_discovery_policy self) ->
  (n_started + length files = n_files)%nat ->
  pending <> [] \/ files <> [] ->
  exists launched files1 tasks done pending2 w2,
    files = launched ++ files1 /\
    map task_file tasks = launched /\
    done <> [] /\
    done ++ pending2 ≡ₚ pending ++ tasks /\
    trace w2 = trace w ++ map EvInferFile launched
                       ++ [EvAwait (length (pending ++ tasks))] /\
    same_caches w w2 /\
    Z.of_nat (length (pending ++ tasks))
    <= Z.max (Z.of_nat (length pending))
             (n_concurrent_requests (_discovery_policy self) + 1) /\
    (files1 = [] \/
     n_concurrent_requests (_discovery_policy self)
     < Z.of_nat (length (pending ++ tasks))) /\
    _infer_schema_loop (S fuel) self sched files pending n_started n_files
                       base w
    = match merge_done self done base with
      | Raise e => Some (Raise e, w2)
      | Return base' =>
          _infer_schema_loop fuel self (tl sched) files1 pending2
               (n_started + length launched)%nat n_files base' w2
      end.
Proof.
  intros Hn Hinv Hcond.
  destruct (top_up_spec self files pending n_started w)
    as (launched & files1 & tasks & w1 & Hrun & Hfiles & Hmap & Htr & Hc
        & Hsat & Hb).
  assert (pending ++ tasks <> []) as Hne.
  { destruct Hcond as [Hp|Hf]; [by destruct pending|].
    destruct Hsat as [->|Hlt].
    - rewrite app_nil_r in Hfiles. subst files launched.
      destruct tasks; [done|]. by destruct pending.
    - intros Heq. rewrite Heq in Hlt. cbn in Hlt. lia. }
  destruct (asyncio_wait_spec (hd (O, []) sched) _ w1 Hne)
    as (done & pending2 & w2 & Hwait & Hdone & Hperm & Htr2 & Hc2).
  exists launched, files1, tasks, done, pending2, w2.
  do 3 (split; [done|]). split; [done|].
  split; [by rewrite Htr2, Htr, <- app_assoc|].
  split; [destruct Hc, Hc2; split; congruence|].
  split; [done|]. split; [done|].
  cbn -[Nat.ltb Nat.eqb top_up asyncio_wait].
  apply (loop_condition files pending _ _ Hinv) in Hcond. rewrite Hcond.
  rewrite (bind_return _ _ _ _ _ Hrun). cbn beta iota.
  rewrite (bind_return _ _ _ _ _ Hwait). cbn beta iota.
  by destruct (merge_done self done base).
Qed.

(** What a run of the loop does, for every schedule: it ends (the fuel
    suffices), it only launches inferences and awaits, on the files of
    the iterator in order; it returns a schema only if every task
    returned one, and an exception it raises is the exception of one of
    its tasks. *)
Lemma loop_spec fuel :
  forall self sched files pending n_started n_files base w,
  0 <= n_concurrent_requests (_discovery_policy self) ->
  (n_started + length files = n_files)%nat ->
  (length files + length pending <= fuel)%nat ->
  exists r w' tr,
    _infer_schema_loop fuel self sched files pending n_started n_files base w
    = Some (r, w') /\
    trace w' = trace w ++ tr /\
    same_caches w w' /\
    inferred_files tr `prefix_of` files /\
    listings tr = [] /\
    Forall (fun m => Z.of_nat m
              <= Z.max (Z.of_nat (length pending))
                       (n_concurrent_requests (_discovery_policy self) + 1))
           (awaits tr) /\
    match r with
    | Return _ =>
        inferred_files tr = files /\
        (forall t, t ∈ pending -> exists s, task_result self t = Return s) /\
        (forall f, f ∈ files ->
                   exists s, _infer_file_schema self f = Return s)
    | Raise e =>
        exists f, (f ∈ map task_file pending \/ f ∈ inferred_files tr) /\
                  _infer_file_schema self f = Raise e
    end.
Proof.
  induction fuel as [|fuel IH];
    intros self sched files pending n_started n_files base w Hn Hinv Hfuel.
  all: destruct (decide (pending = [] /\ files = [])) as [[-> ->]|Hcond].
  1, 3: cbn in Hinv; rewrite Nat.add_0_r in Hinv; subst n_started;
    exists (Return base), w, []; rewrite loop_exit, app_nil_r;
    do 3 (split; [done|]); split; [by exists []|]; split; [done|];
    split; [by constructor|]; split; [done|];
    split; intros ? H; by apply elem_of_nil in H.
  { destruct files, pending; cbn in Hfuel; try lia. by destruct Hcond. }
  assert (pending <> [] \/ files <> []) as Hcond'.
  { destruct pending; [right|by left]. intros ->. by apply Hcond. }
  clear Hcond.
  destruct (loop_round fuel self sched files pending n_started
              n_files base w Hn Hinv Hcond')
    as (launched & files1 & tasks & done & pending2 & w2 & Hfiles & Hmap
        & Hdone & Hperm & Htr & Hc & Hb & _ & Hstep).
  rewrite Hstep; clear Hstep.
  assert (length done + length pending2
          = length pending + length tasks)%nat as Hlen.
  { rewrite <- !length_app. by rewrite Hperm. }
  assert (length tasks = length launched) as Hlt.
  { rewrite <- Hmap. by rewrite length_map. }
  assert (0 < length done)%nat as Hd by (destruct done; [done|cbn; lia]).
  assert (forall t, t ∈ done ++ pending2 <-> t ∈ pending ++ tasks) as Hmem.
  { intros t. by rewrite Hperm. }
  destruct (merge_done self done base) as [base'|e] eqn:Em.
  2: { (* a task of this round raised *)
    apply merge_done_raise in Em as (t & Ht & Hr).
    exists (Raise e), w2, (map EvInferFile launched
                               ++ [EvAwait (length (pending ++ tasks))]).
    split; [done|]. split; [done|]. split; [done|].
    rewrite inferred_files_app, listings_app, awaits_app,
      inferred_files_launch, listings_launch, awaits_launch.
    cbn. rewrite app_nil_r.
    split; [subst files; by apply prefix_app_r|]. split; [done|].
    split; [by repeat constructor|].
    exists (task_file t). split; [|done].
    assert (t ∈ pending ++ tasks) as Hin.
    { apply Hmem, elem_of_app. by left. }
    apply elem_of_app in Hin as [Hin|Hin];
      [left|right; rewrite <- Hmap]; by apply list_elem_of_fmap_2. }
  destruct (IH self (tl sched) files1 pending2
               (n_started + length launched)%nat n_files base' w2 Hn)
    as (r & w' & tr & Hrun & Htr' & Hc' & Hpre & Hlist & Haw & Hres).
  { subst files. rewrite length_app in Hinv. lia. }
  { subst files. rewrite length_app in Hfuel. lia. }
  exists r, w', (map EvInferFile launched
                   ++ [EvAwait (length (pending ++ tasks))] ++ tr).
  split; [done|].
  split; [by rewrite Htr', Htr, <- !app_assoc|].
  split; [destruct Hc, Hc'; split; congruence|].
  rewrite !inferred_files_app, !listings_app, !awaits_app,
    inferred_files_launch, listings_launch, awaits_launch.
  change (inferred_files [EvAwait _]) with (@nil RemoteFile).
  change (listings [EvAwait _]) with (@nil (list string * option Z)).
  change (awaits [EvAwait ?n]) with [n].
  cbn [app].
  split; [subst files; by apply prefix_app|].
  split; [done|].
  split.
  { constructor; [done|].
    eapply Forall_impl; [exact Haw|].
    intros m Hm. cbn beta in Hm. rewrite length_app in Hb. lia. }
  destruct r as [s|e].
  - destruct Hres as (Hall & Hpend & Hfs).
    split; [subst files; by rewrite Hall|].
    split.
    + intros t Ht.
      assert (t ∈ done ++ pending2) as Hin.
      { apply Hmem, elem_of_app. by left. }
      apply elem_of_app in Hin as [Hin|Hin];
        [by eapply merge_done_return|by apply Hpend].
    + intros f Hf. subst files.
      apply elem_of_app in Hf as [Hf|Hf]; [|by apply Hfs].
      rewrite <- Hmap in Hf.
      apply list_elem_of_fmap in Hf as (t & -> & Ht).
      assert (t ∈ done ++ pending2) as Hin.
      { apply Hmem, elem_of_app. by right. }
      apply elem_of_app in Hin as [Hin|Hin];
        [by eapply merge_done_return|by apply Hpend].
  - destruct Hres as (f & Hf & Hr). exists f. split; [|done].
    destruct Hf as [Hf|Hf]; [|right; apply elem_of_app; by right].
    apply list_elem_of_fmap in Hf as (t & -> & Ht).
    assert (t ∈ pending ++ tasks) as Hin.
    { apply Hmem, elem_of_app. by right. }
    apply elem_of_app in Hin as [Hin|Hin].
    + left. by apply list_elem_of_fmap_2.
    + right. apply elem_of_app. left. rewrite <- Hmap.
      by apply list_elem_of_fmap_2.
Qed.

(** The whole call, for a policy that allows at least no negative number
    of requests. *)
Lemma _infer_schema_spec self sched files w :
  0 <= n_concurrent_requests (_discovery_policy self) ->
  exists r w' tr,
    _infer_schema self sched files w = Some (r, w') /\
    trace w' = trace w ++ tr /\
    same_caches w w' /\
    inferred_files tr `prefix_of` files /\
    listings tr = [] /\
    Forall (fun m => Z.of_nat m
              <= n_concurrent_requests (_discovery_policy self) + 1)
           (awaits tr) /\
    match r with
    | Return _ =>
        inferred_files tr = files /\
        (forall f, f ∈ files ->
                   exists s, _infer_file_schema self f = Return s)
    | Raise e =>
        exists f, f ∈ inferred_files tr /\ _infer_file_schema self f = Raise e
    end.
Proof.
  intros Hn. unfold _infer_schema.
  destruct (loop_spec (length files) self sched files [] O (length files)
              ∅ w Hn)
    as (r & w' & tr & Hrun & Htr & Hc & Hpre & Hl & Haw & Hr);
    [done|cbn; lia|].
  exists r, w', tr. do 5 (split; [done|]). split.
  - eapply Forall_impl; [exact Haw|]. cbn. intros m Hm. lia.
  - destruct r as [s|e].
    + destruct Hr as (? & _ & ?). done.
    + destruct Hr as (f & [Hf|Hf] & He); [by apply elem_of_nil in Hf|].
      by exists f.
Qed.

(** With a negative limit nothing is ever launched, and [asyncio.wait] is
    called on the empty set. *)
Lemma _infer_schema_negative_limit self sched files w :
  n_concurrent_requests (_discovery_policy self) < 0 ->
  files <> [] ->
  exists e,
    _infer_schema self sched files w = Some (Raise e, w) /\
    exc_class e = ValueError.
Proof.
  intros Hn Hne. unfold _infer_schema.
  destruct files as [|file files]; [done|].
  cbn -[asyncio_wait]. change (Z.of_nat 0) with 0.
  destruct (Z.leb_spec 0 (n_concurrent_requests (_discovery_policy self)));
    [lia|].
  by eexists.
Qed.

(** For every policy: the call ends, touches no cache, lists nothing, and
    launches inference on a prefix of its argument, which is the whole
    argument when it returns a schema. *)
Lemma _infer_schema_launches self sched files w :
  exists r w' tr,
    _infer_schema self sched files w = Some (r, w') /\
    trace w' = trace w ++ tr /\
    same_caches w w' /\
    inferred_files tr `prefix_of` files /\
    listings tr = [] /\
    (forall schema, r = Return schema -> inferred_files tr = files).
Proof.
  destruct (Z.le_gt_cases 0 (n_concurrent_requests (_discovery_policy self)))
    as [Hn|Hn].
  - destruct (_infer_schema_spec self sched files w Hn)
      as (r & w' & tr & Hrun & Htr & Hc & Hpre & Hl & _ & Hr).
    exists r, w', tr. do 5 (split; [done|]).
    intros schema ->. apply Hr.
  - destruct files as [|file files'] eqn:Ef.
    + exists (Return ∅), w, []. rewrite app_nil_r. by repeat split.
    + destruct (_infer_schema_negative_limit self sched (file :: files') w Hn)
        as (e & Hrun & _); [done|].
      exists (Raise e), w, []. rewrite app_nil_r.
      do 3 (split; [done|]). split; [apply prefix_nil|]. by split.
Qed.

(** The model's fuel always suffices: [_infer_schema] ends, with a schema
    or an exception, for every stream, schedule, file list and world. *)
Lemma _infer_schema_terminates self sched files w :
  is_Some (_infer_schema self sched files w).
Proof.
  destruct (_infer_schema_launches self sched files w) as (r & w' & ? & -> & _).
  by eexists.
Qed.

(** The number of tasks in flight at an [await] is at most
    [n_concurrent_requests + 1], and this number is reached as soon as
    there are more than [n_concurrent_requests] files. *)
Lemma in_flight_reaches self sched files w :
  0 <= n_concurrent_requests (_discovery_policy self) ->
  n_concurrent_requests (_discovery_policy self) < Z.of_nat (length files) ->
  exists r w' tr m,
    _infer_schema self sched files w = Some (r, w') /\
    trace w' = trace w ++ tr /\
    m ∈ awaits tr /\
    Z.of_nat m = n_concurrent_requests (_discovery_policy self) + 1.
Proof.
  intros Hn Hlen. unfold _infer_schema.
  destruct files as [|file files'] eqn:Ef; [cbn in Hlen; lia|].
  rewrite <- Ef in *. assert (files <> []) as Hne by (by subst).
  assert (length files = S (length files')) as Hl by (by subst).
  clear Ef.
  assert (_infer_schema_loop (length files) self sched files [] O
                             (length files) ∅ w
          = _infer_schema_loop (S (length files')) self sched files [] O
                               (length files) ∅ w)
    as -> by (by rewrite <- Hl).
  destruct (loop_round (length files') self sched files [] O (length files)
              ∅ w Hn eq_refl (or_intror Hne))
    as (launched & files1 & tasks & done & pending2 & w2 & Hfiles & Hmap
        & Hdone & Hperm & Htr & Hc & Hb & Hsat & Hstep).
  rewrite Hstep. clear Hstep. cbn [app length] in *.
  assert (Z.of_nat (length tasks)
          = n_concurrent_requests (_discovery_policy self) + 1) as Hm.
  { destruct Hsat as [Hnil|Hsat]; [|lia].
    rewrite Hnil, app_nil_r in Hfiles.
    rewrite Hfiles, <- Hmap, length_map in Hlen. lia. }
  assert (length done + length pending2 = length tasks)%nat as Hdp.
  { rewrite <- length_app. by rewrite Hperm. }
  assert (length launched = length tasks) as Hlt.
  { rewrite <- Hmap. by rewrite length_map. }
  destruct (merge_done self done ∅) as [base'|e].
  - destruct (loop_spec (length files') self (tl sched) files1 pending2
                (0 + length launched) (length files) base' w2 Hn)
      as (r & w' & tr & Hrun & Htr' & _).
    { subst files. rewrite length_app. lia. }
    { subst files. rewrite length_app in Hl. destruct done; [done|].
      cbn in Hdp. lia. }
    exists r, w', (map EvInferFile launched ++ [EvAwait (length tasks)] ++ tr),
      (length tasks).
    split; [done|]. split; [by rewrite Htr', Htr, <- !app_assoc|].
    split; [|done].
    rewrite !awaits_app, awaits_launch. cbn. by left.
  - exists (Raise e), w2,
      (map EvInferFile launched ++ [EvAwait (length tasks)]),
      (length tasks).
    split; [done|]. split; [done|]. split; [|done].
    rewrite !awaits_app, awaits_launch. cbn. by left.
Qed.

(** Inference is launched on the first [n_concurrent_requests + 1] files
    before anything is awaited, whatever happens afterwards; and the call
    returns a schema as soon as the parser infers one for every file. *)
Lemma _infer_schema_first_batch self sched files w r w' tr :
  0 <= n_concurrent_requests (_discovery_policy self) ->
  _infer_schema self sched files w = Some (r, w') ->
  trace w' = trace w ++ tr ->
  take (Z.to_nat (n_concurrent_requests (_discovery_policy self) + 1)) files
    `prefix_of` inferred_files tr /\
  ((forall file, file ∈ files ->
      exists s,
        infer_schema_of (_get_parser (Config.file_type (config self)))
                        file (_stream_reader self) = Return s) ->
   exists schema, r = Return schema).
Proof.
  intros Hn Hrun Htr. split.
  - destruct files as [|file files'] eqn:Ef;
      [rewrite take_nil; apply prefix_nil|].
    rewrite <- Ef in *. assert (files <> []) as Hne by (by subst).
    assert (length files = S (length files')) as Hl by (by subst).
    clear Ef. unfold _infer_schema in Hrun.
    assert (_infer_schema_loop (length files) self sched files [] O
                               (length files) ∅ w
            = _infer_schema_loop (S (length files')) self sched files [] O
                                 (length files) ∅ w)
      as Hfuel by (by rewrite <- Hl).
    rewrite Hfuel in Hrun. clear Hfuel.
    destruct (loop_round (length files') self sched files [] O (length files)
                ∅ w Hn eq_refl (or_intror Hne))
      as (launched & files1 & tasks & done & pending2 & w2 & Hfiles & Hmap
          & Hdone & Hperm & Htr2 & Hc & Hb & Hsat & Hstep).
    rewrite Hstep in Hrun. clear Hstep. cbn [app length] in *.
    assert (length launched = length tasks) as Hlt.
    { rewrite <- Hmap. by rewrite length_map. }
    assert (take (Z.to_nat (n_concurrent_requests (_discovery_policy self)
                            + 1)) files `prefix_of` launched) as Hbatch.
    { destruct Hsat as [Hnil|Hsat].
      - rewrite Hnil, app_nil_r in Hfiles. subst launched.
        eexists. symmetry. apply take_drop.
      - assert (Z.to_nat (n_concurrent_requests (_discovery_policy self) + 1)
                = length launched) as -> by lia.
        rewrite Hfiles, take_app_length. done. }
    assert (length done + length pending2 = length tasks)%nat as Hdp.
    { rewrite <- length_app. by rewrite Hperm. }
    destruct (merge_done self done ∅) as [base'|e].
    + destruct (loop_spec (length files') self (tl sched) files1 pending2
                  (0 + length launched) (length files) base' w2 Hn)
        as (r0 & w0 & tr0 & Hrun0 & Htr0 & _).
      { subst files. rewrite length_app. lia. }
      { subst files. rewrite length_app in Hl. destruct done; [done|].
        cbn in Hdp. lia. }
      rewrite Hrun0 in Hrun. inversion Hrun; subst r0 w0. clear Hrun.
      rewrite Htr0, Htr2, <- !app_assoc in Htr.
      apply app_inv_head in Htr. subst tr.
      rewrite inferred_files_app, inferred_files_launch.
      by apply prefix_app_r.
    + inversion Hrun; subst r w'. clear Hrun.
      rewrite Htr2 in Htr. apply app_inv_head in Htr. subst tr.
      rewrite inferred_files_app, inferred_files_launch.
      by apply prefix_app_r.
  - intros Hall.
    destruct (_infer_schema_spec self sched files w Hn)
      as (r0 & w0 & tr0 & Hrun0 & _ & _ & Hpre & _ & _ & Hr).
    rewrite Hrun in Hrun0. inversion Hrun0; subst r0 w0. clear Hrun0.
    destruct r as [schema|e]; [by exists schema|].
    destruct Hr as (f & Hf & He).
    assert (f ∈ files) as Hin.
    { destruct Hpre as (rest & ->). apply elem_of_app. by left. }
    destruct (Hall f Hin) as (s & Hs).
    unfold _infer_file_schema in He. by rewrite Hs in He.
Qed.

(** [C10]  Inferring the schema of no files returns the empty schema
    [{}], for every policy and schedule: it does not raise, it launches
    no inference, and it leaves the world (trace, caches, event loop) as
    it was. *)
Theorem infer_schema_no_files self sched w :
  _infer_schema self sched [] w = Some (Return ∅, w) /\
  infer_schema self sched [] w = Some (Return ∅, w).
Proof. split; reflexivity. Qed.

(** [C2, as amended]  If the parser fails to infer the schema of some file
    of the list, then [_infer_schema] raises, under every schedule, a
    [SchemaInferenceError] whose message is "Error inferring schema for
    file: " followed by the URI of a file of the list on which the parser
    fails (hence of that very file when it is the only one that fails),
    with the parser's exception as its cause; the call returns no schema
    and leaves both caches as they were. *)
Theorem infer_schema_fails_fast self sched files w file exc0 :
  0 <= n_concurrent_requests (_discovery_policy self) ->
  file ∈ files ->
  infer_schema_of (_get_parser (Config.file_type (config self)))
                  file (_stream_reader self) = Raise exc0 ->
  exists bad exc w',
    bad ∈ files /\
    infer_schema_of (_get_parser (Config.file_type (config self)))
                    bad (_stream_reader self) = Raise exc /\
    _infer_schema self sched files w
    = Some (Raise (Exc SchemaInferenceError
                       ("Error inferring schema for file: " +:+ uri bad)
                       (Some exc)), w') /\
    same_caches w w' /\
    ((forall g e, g ∈ files ->
         infer_schema_of (_get_parser (Config.file_type (config self)))
                         g (_stream_reader self) = Raise e -> g = file) ->
     bad = file).
Proof.
  intros Hn Hin Hfail.
  destruct (_infer_schema_spec self sched files w Hn)
    as (r & w' & tr & Hrun & Htr & Hc & Hpre & _ & _ & Hr).
  destruct r as [s|e].
  - destruct Hr as (_ & Hall). destruct (Hall file Hin) as (s' & Hs).
    unfold _infer_file_schema in Hs. by rewrite Hfail in Hs.
  - destruct Hr as (bad & Hbad & He).
    assert (bad ∈ files) as Hbf.
    { destruct Hpre as (rest & ->). apply elem_of_app. by left. }
    unfold _infer_file_schema in He.
    destruct (infer_schema_of _ bad _) as [s|exc] eqn:Eb; [done|].
    inversion He; subst e.
    exists bad, exc, w'. do 4 (split; [done|]).
    intros Huniq. by eapply Huniq.
Qed.

(** ** Record extraction *)

Lemma record_events_nil w : record_events [] w = w.
Proof. destruct w. unfold record_events. cbn. by rewrite app_nil_r. Qed.

Lemma record_events_app evs1 evs2 w :
  record_events evs2 (record_events evs1 w) = record_events (evs1 ++ evs2) w.
Proof. unfold record_events. cbn. by rewrite app_assoc. Qed.

Lemma record_event_events e w : record_event e w = record_events [e] w.
Proof. reflexivity. Qed.

Lemma files_read_all failure files :
  (forall f, f ∈ files -> failure f = None) ->
  files_read failure files = (files, None).
Proof.
  induction files as [|file files IH]; intros Hok; cbn; [done|].
  rewrite (Hok file) by (by left).
  rewrite IH; [done|]. intros f Hf. apply Hok. by right.
Qed.

(** The inner loop yields the accepted records and warns about the
    others, in the order of emission. *)
Lemma for_record_in_spec self schema records yielded w :
  for_record_in self schema records
                yielded w
  = (yielded ++ List.filter (accepts self schema) records,
     record_events
       (map (fun record => EvWarning (RecordDidNotPass record))
            (List.filter (fun record => negb (accepts self schema record))
                         records))
       w).
Proof.
  revert yielded w. induction records as [|record records IH];
    intros yielded w; cbn.
  - by rewrite app_nil_r, record_events_nil.
  - fold (accepts self schema record).
    destruct (accepts self schema record) eqn:E; cbn.
    + by rewrite IH, <- app_assoc.
    + rewrite IH. unfold logging_warning.
      by rewrite record_event_events, record_events_app.
Qed.

(** The outer loop, whether or not a parser raises. *)
Lemma for_file_in_spec self parser schema files yielded w :
  let emitted file := (parse_records parser file (_stream_reader self)).1 in
  let failure file := (parse_records parser file (_stream_reader self)).2 in
  for_file_in self parser schema files
              yielded w
  = ((yielded ++ validated_records (accepts self schema) emitted
                   (files_read failure files).1,
      (files_read failure files).2),
     record_events
       (validation_diagnostics (accepts self schema) emitted
          (files_read failure files).1)
       w).
Proof.
  intros emitted failure. revert yielded w.
  induction files as [|file files IH]; intros yielded w; cbn.
  - by rewrite app_nil_r, record_events_nil.
  - subst emitted failure. cbn beta in *.
    destruct (parse_records parser file (_stream_reader self))
      as [records exc] eqn:Ep.
    rewrite for_record_in_spec. cbn [fst snd].
    destruct exc as [e|]; cbn; rewrite ?Ep; cbn [fst snd].
    + by rewrite !app_nil_r.
    + rewrite IH.
      destruct (files_read _ files) as [got outcome]. cbn.
      by rewrite record_events_app, <- app_assoc, Ep.
Qed.

(** The guard of [read_records]. *)
Lemma read_records_missing_schema self sync_mode cursor_field stream_slice
      stream_state w :
  _catalog_schema self = None ->
  exists msg,
    read_records self sync_mode cursor_field stream_slice stream_state w
    = (([], Some (Exc MissingSchemaError msg None)), w).
Proof. intros H. unfold read_records. rewrite H. by eexists. Qed.

Lemma read_records_same_caches self sync_mode cursor_field stream_slice
      stream_state w :
  same_caches w
    (read_records self sync_mode cursor_field stream_slice stream_state w).2.
Proof.
  unfold read_records. destruct (_catalog_schema self); [|done].
  cbn. by rewrite for_file_in_spec.
Qed.

(** No constructed stream reaches that guard: whatever the raw
    configuration, reading goes on to list and parse, with the empty
    mapping as its schema. *)
Lemma constructed_stream_passes_guard raw_config stream_reader
      discovery_policy self sync_mode cursor_field stream_slice stream_state
      w :
  __init__ raw_config stream_reader discovery_policy = Return self ->
  read_records self sync_mode cursor_field stream_slice stream_state w
  = for_file_in self (_get_parser (Config.file_type (config self))) ∅
      (list_files_for_this_sync self stream_state w).1 []
      (list_files_for_this_sync self stream_state w).2.
Proof.
  unfold __init__. destruct (FileBasedStreamConfig raw_config); [|done].
  by intros [= <-].
Qed.

(** [_get_datetime_from_stream_state] returns [None] for every state, so
    a sync lists without a lower bound. *)
Lemma list_files_for_this_sync_unbounded self stream_state w :
  list_files_for_this_sync self stream_state w
  = (list_matching_files (_stream_reader self)
                         (Config.globs (config self)) None,
     record_events [EvListMatchingFiles (Config.globs (config self)) None]
                   w).
Proof. reflexivity. Qed.

(** [C5]  With a schema in place, [read_records] yields exactly the
    concatenation, in listing order, of each file's parser output filtered
    by the validation policy: a rejected record is dropped, with one
    warning logged for it (after the listing call, in order), and the loop
    goes on; an accepted record is yielded unchanged, in emission order.
    This holds over the files the loop reads, which are all the files of
    the sync, with a normal end, when no parser raises (a parser that
    raises ends the generator after the records of its file). *)
Theorem read_records_validated self sync_mode cursor_field stream_slice
        stream_state schema w :
  let parser := _get_parser (Config.file_type (config self)) in
  let files := (list_files_for_this_sync self stream_state w).1 in
  let emitted file := (parse_records parser file (_stream_reader self)).1 in
  let failure file := (parse_records parser file (_stream_reader self)).2 in
  _catalog_schema self = Some schema ->
  read_records self sync_mode cursor_field stream_slice stream_state w
  = ((validated_records (accepts self schema) emitted
        (files_read failure files).1,
      (files_read failure files).2),
     record_events
       (validation_diagnostics (accepts self schema) emitted
          (files_read failure files).1)
       (list_files_for_this_sync self stream_state w).2) /\
  ((forall file, file ∈ files -> failure file = None) ->
   files_read failure files = (files, None)).
Proof.
  intros parser files emitted failure Hschema.
  split; [|apply files_read_all].
  unfold read_records. rewrite Hschema.
  destruct (list_files_for_this_sync self stream_state w) as [fs w0] eqn:El.
  cbn [fst snd] in *. subst files.
  by rewrite for_file_in_spec.
Qed.

(** ** Schema discovery: sampling, declared schemas, memoisation *)

Lemma slice_to_nonneg {A} k (l : list A) :
  0 <= k -> slice_to k l = take (Z.to_nat k) l.
Proof. intros Hk. unfold slice_to. by destruct (Z.leb_spec 0 k); [|lia]. Qed.

(** [list_files] returns, touches only its own cache, and infers
    nothing. *)
Lemma list_files_spec self w :
  exists files w0 tr,
    list_files self w = Some (Return files, w0) /\
    trace w0 = trace w ++ tr /\
    inferred_files tr = [] /\
    get_json_schema_cache w0 = get_json_schema_cache w /\
    list_files_cache w0 = Some files /\
    match list_files_cache w with
    | Some cached => files = cached /\ w0 = w
    | None => files = list_matching_files (_stream_reader self)
                        (Config.globs (config self)) None
    end.
Proof.
  unfold list_files. destruct (list_files_cache w) as [cached|] eqn:Ec.
  - exists cached, w, []. by rewrite app_nil_r.
  - eexists _, _, [_]. cbn. split; [reflexivity|]. done.
Qed.

(** What a first call of [get_json_schema] does when there is no declared
    schema: it runs [infer_schema] on [sample], under a world in which
    nothing was inferred yet. *)
Lemma get_json_schema_infers self sched w files w0 :
  truthy (Config.input_schema (config self)) = false ->
  get_json_schema_cache w = None ->
  list_files self w = Some (Return files, w0) ->
  let k := max_n_files_for_schema_inference (_discovery_policy self) in
  let sample :=
    if Z.of_nat (length files) >? k
    then slice_to k (sorted_reverse last_modified files)
    else files in
  exists w1 tr1,
    trace w1 = trace w ++ tr1 /\ inferred_files tr1 = [] /\
    get_json_schema self sched w
    = match infer_schema self sched sample w1 with
      | Some (Return schema, w2) =>
          Some (Return schema,
                {| trace := trace w2;
                   get_json_schema_cache := Some schema;
                   list_files_cache := list_files_cache w2;
                   loop_tasks := loop_tasks w2;
                   next_task_id := next_task_id w2 |})
      | Some (Raise e, w2) => Some (Raise e, w2)
      | None => None
      end.
Proof.
  intros Htruthy Hcache Hlist k sample.
  destruct (list_files_spec self w)
    as (files' & w0' & tr0 & Hlist' & Htr0 & Hinf0 & _).
  rewrite Hlist in Hlist'. inversion Hlist'; subst files' w0'. clear Hlist'.
  unfold get_json_schema. rewrite Hcache.
  unfold get_json_schema__wrapped__. rewrite Htruthy.
  unfold mbind at 1, M_bind at 1.
  rewrite (bind_return _ _ _ _ _ Hlist). subst sample k.
  destruct (Z.of_nat (length files) >? _).
  - match goal with
    | |- context [emit ?e] => exists (record_event e w0), (tr0 ++ [e])
    end.
    split; [cbn; by rewrite Htr0, <- app_assoc|].
    split; [by rewrite inferred_files_app, Hinf0|].
    erewrite (bind_return (emit _)); [|reflexivity].
    by destruct (infer_schema _ _ _ _) as [[[schema|e] w2]|].
  - exists w0, tr0. do 2 (split; [done|]).
    by destruct (infer_schema _ _ _ _) as [[[schema|e] w2]|].
Qed.

(** The sample is the listing when it is short enough, and otherwise the
    [k] most preferred positions. *)
Lemma sample_spec files k :
  0 <= k ->
  let sample := if Z.of_nat (length files) >? k
                then slice_to k (sorted_reverse last_modified files)
                else files in
  (Z.of_nat (length files) <= k -> sample = files) /\
  (k < Z.of_nat (length files) ->
   exists chosen : list (nat * RemoteFile),
     sample = map snd chosen /\
     Z.of_nat (length chosen) = k /\
     NoDup (map fst chosen) /\
     (forall i f, (i, f) ∈ chosen -> files !! i = Some f) /\
     StronglySorted preferred chosen /\
     (forall p j g, p ∈ chosen -> files !! j = Some g ->
                    j ∉ map fst chosen -> preferred p (j, g))).
Proof.
  intros Hk sample. subst sample.
  destruct (Z.gtb_spec (Z.of_nat (length files)) k) as [Hgt|Hle].
  - split; [lia|]. intros _.
    destruct (take_sorted_reverse files (Z.to_nat k))
      as (chosen & Htake & Hlen & H);
      [lia|].
    exists chosen. rewrite slice_to_nonneg by done.
    split; [done|]. split; [lia|done].
  - split; [done|lia].
Qed.

(** [C3]  On a first call of [get_json_schema] without a declared schema,
    with [N] listed files and [k = max_n_files_for_schema_inference >= 0]:
    the files on which inference is launched are, in order, a prefix of
    a list [sample], and all of [sample] when the call returns a schema.
    With a concurrency limit [n >= 0], inference is launched in any case
    on the first [n + 1] files of [sample], and the call does return a
    schema, having launched inference on all of [sample], when the parser
    infers a schema for every file of [sample].
    When [N <= k], [sample] is the listing unchanged.  When [N > k],
    [sample] consists of [k] distinct listing positions, each preferred
    (modified strictly later, or at the same instant and listed earlier)
    to every position that is not in it. *)
Theorem get_json_schema_samples_latest self sched w files w0 :
  0 <= max_n_files_for_schema_inference (_discovery_policy self) ->
  truthy (Config.input_schema (config self)) = false ->
  get_json_schema_cache w = None ->
  list_files self w = Some (Return files, w0) ->
  exists sample r w' tr,
    get_json_schema self sched w = Some (r, w') /\
    trace w' = trace w ++ tr /\
    inferred_files tr `prefix_of` sample /\
    (forall schema, r = Return schema -> inferred_files tr = sample) /\
    (0 <= n_concurrent_requests (_discovery_policy self) ->
     take (Z.to_nat (n_concurrent_requests (_discovery_policy self) + 1))
          sample `prefix_of` inferred_files tr) /\
    (0 <= n_concurrent_requests (_discovery_policy self) ->
     (forall file, file ∈ sample ->
        exists s,
          infer_schema_of (_get_parser (Config.file_type (config self)))
                          file (_stream_reader self) = Return s) ->
     exists schema, r = Return schema /\ inferred_files tr = sample) /\
    (Z.of_nat (length files)
     <= max_n_files_for_schema_inference (_discovery_policy self) ->
     sample = files) /\
    (max_n_files_for_schema_inference (_discovery_policy self)
     < Z.of_nat (length files) ->
     exists chosen : list (nat * RemoteFile),
       sample = map snd chosen /\
       Z.of_nat (length chosen)
       = max_n_files_for_schema_inference (_discovery_policy self) /\
       NoDup (map fst chosen) /\
       (forall i f, (i, f) ∈ chosen -> files !! i = Some f) /\
       StronglySorted preferred chosen /\
       (forall p j g, p ∈ chosen -> files !! j = Some g ->
                      j ∉ map fst chosen -> preferred p (j, g))).
Proof.
  intros Hk Htruthy Hcache Hlist.
  destruct (get_json_schema_infers self sched w files w0 Htruthy Hcache Hlist)
    as (w1 & tr1 & Htr1 & Hinf1 & Hrun).
  set (k := max_n_files_for_schema_inference (_discovery_policy self)) in *.
  set (sample := if Z.of_nat (length files) >? k
                 then slice_to k (sorted_reverse last_modified files)
                 else files) in *.
  destruct (_infer_schema_launches self sched sample w1)
    as (r & w2 & tr2 & Hinfer & Htr2 & _ & Hpre & _ & Hres).
  unfold infer_schema in Hrun. rewrite Hinfer in Hrun.
  assert (inferred_files (tr1 ++ tr2) = inferred_files tr2) as Hproj.
  { by rewrite inferred_files_app, Hinf1. }
  destruct (sample_spec files k Hk) as [Hshort Hlong].
  assert (0 <= n_concurrent_requests (_discovery_policy self) ->
          take (Z.to_nat (n_concurrent_requests (_discovery_policy self) + 1))
               sample `prefix_of` inferred_files tr2) as Hbatch.
  { intros Hn.
    by destruct (_infer_schema_first_batch self sched sample w1 r w2 tr2 Hn
                   Hinfer Htr2). }
  assert (0 <= n_concurrent_requests (_discovery_policy self) ->
          (forall file, file ∈ sample ->
             exists s,
               infer_schema_of (_get_parser (Config.file_type (config self)))
                               file (_stream_reader self) = Return s) ->
          exists schema, r = Return schema /\ inferred_files tr2 = sample)
    as Hreturns.
  { intros Hn Hall.
    destruct (_infer_schema_first_batch self sched sample w1 r w2 tr2 Hn
                Hinfer Htr2) as [_ Hret].
    destruct (Hret Hall) as (schema & ->). exists schema.
    split; [done|]. by eapply Hres. }
  exists sample, r.
  destruct r as [schema|e].
  - eexists _, (tr1 ++ tr2). split; [exact Hrun|]. cbn.
    split; [by rewrite Htr2, Htr1, <- app_assoc|].
    rewrite Hproj. split; [done|]. split; [intros _ _; by eapply Hres|].
    do 2 (split; [done|]). by split.
  - exists w2, (tr1 ++ tr2). split; [exact Hrun|].
    split; [by rewrite Htr2, Htr1, <- app_assoc|].
    rewrite Hproj. split; [done|]. split; [done|].
    do 2 (split; [done|]). by split.
Qed.

(** With a declared, non-empty input schema the body of
    [get_json_schema] is a plain return. *)
Lemma declared_schema_returned self sched w m :
  Config.input_schema (config self) = Some m ->
  m <> ∅ ->
  get_json_schema__wrapped__ self sched w
  = Some (Return (type_mapping_to_jsonschema m), w).
Proof.
  intros Hm Hne. unfold get_json_schema__wrapped__. rewrite Hm. cbn.
  destruct (Nat.eqb_spec (size m) 0) as [Hz|_]; [|done].
  by apply map_size_empty_iff in Hz.
Qed.

(** In every world of such a stream the schema cache is empty or holds
    the converted declared schema. *)
Lemma declared_schema_cached self w m :
  Config.input_schema (config self) = Some m ->
  m <> ∅ ->
  reachable self w ->
  get_json_schema_cache w = None \/
  get_json_schema_cache w = Some (type_mapping_to_jsonschema m).
Proof.
  intros Hm Hne Hreach.
  induction Hreach as [|sched w r w' _ IH Hcall|w r w' _ IH Hcall
                       |sync_mode cursor_field stream_slice stream_state
                          w g w' _ IH Hcall].
  - by left.
  - unfold get_json_schema in Hcall.
    destruct (get_json_schema_cache w) as [cached|] eqn:Ec.
    + inversion Hcall; subst. by rewrite Ec.
    + unfold mbind, M_bind in Hcall.
      rewrite (declared_schema_returned self sched w m Hm Hne) in Hcall.
      cbn in Hcall. inversion Hcall; subst. by right.
  - destruct (list_files_spec self w)
      as (files & w0 & tr & Hlist & _ & _ & Hc & _).
    rewrite Hlist in Hcall. inversion Hcall; subst. by rewrite Hc.
  - pose proof (read_records_same_caches self
                  sync_mode cursor_field stream_slice stream_state w) as [Hc _].
    rewrite Hcall in Hc. cbn in Hc. by rewrite Hc.
Qed.

(** [C7, as amended]  When the stream configuration carries a declared
    input schema that is a non-empty mapping, [get_json_schema] returns,
    in every world the instance can be in and for every schedule, that
    mapping converted by [type_mapping_to_jsonschema], and the trace is
    unchanged: no file is listed and no inference is launched. *)
Theorem get_json_schema_declared_schema self sched w m :
  Config.input_schema (config self) = Some m ->
  m <> ∅ ->
  reachable self w ->
  exists w',
    get_json_schema self sched w
    = Some (Return (type_mapping_to_jsonschema m), w') /\
    trace w' = trace w.
Proof.
  intros Hm Hne Hreach. unfold get_json_schema.
  destruct (declared_schema_cached self w m Hm Hne Hreach) as [Hc|Hc];
    rewrite Hc.
  - unfold mbind, M_bind.
    rewrite (declared_schema_returned self sched w m Hm Hne). cbn.
    by eexists.
  - by exists w.
Qed.

(** [C8]  Once a call of [get_json_schema] has returned a schema, every
    later call on the same instance, under any schedule, returns the same
    schema and leaves the world exactly as it was: nothing is listed and
    no inference is launched again. *)
Theorem get_json_schema_memoized self sched sched' w schema w1 :
  get_json_schema self sched w = Some (Return schema, w1) ->
  get_json_schema self sched' w1 = Some (Return schema, w1).
Proof.
  unfold get_json_schema. intros Hfirst.
  destruct (get_json_schema_cache w) as [cached|] eqn:Ec.
  - inversion Hfirst; subst. by rewrite Ec.
  - unfold mbind, M_bind in Hfirst.
    destruct (get_json_schema__wrapped__ self sched w) as [[[s|e] w2]|];
      [|done..].
    cbn in Hfirst. inversion Hfirst; subst. reflexivity.
Qed.

(** The listing is memoised in the same way. *)
Lemma list_files_memoized self w files w1 :
  list_files self w = Some (Return files, w1) ->
  list_files self w1 = Some (Return files, w1).
Proof.
  intros Hfirst.
  destruct (list_files_spec self w) as (fs & w0 & tr & Hl & _ & _ & _ & Hc & _).
  rewrite Hl in Hfirst. inversion Hfirst; subst.
  unfold list_files. by rewrite Hc.
Qed.

(** ** Construction *)

(** [C9]  [__init__] raises [ConfigValidationError] (with the
    constructor's exception as its cause) for every raw configuration on
    which the stream-config constructor raises, and then returns no
    stream object at all; on a raw configuration the constructor accepts
    it returns a stream whose [config] is the constructed one, with the
    reader and the policy it was given. *)
Theorem init_config_validation raw_config stream_reader discovery_policy :
  (forall exc,
      FileBasedStreamConfig raw_config = Raise exc ->
      __init__ raw_config stream_reader
               discovery_policy
      = Raise (Exc ConfigValidationError
                   "Error creating stream config object." (Some exc))) /\
  (forall c,
      FileBasedStreamConfig raw_config = Return c ->
      exists self,
        __init__ raw_config stream_reader
                 discovery_policy = Return self /\
        config self = c /\
        _stream_reader self = stream_reader /\
        _discovery_policy self = discovery_policy).
Proof.
  unfold __init__. split.
  - by intros exc ->.
  - intros c ->. by eexists.
Qed.

(** A constructed stream always has a catalog schema: the empty
    mapping, never [None]. *)
Lemma init_catalog_schema raw_config stream_reader discovery_policy self :
  __init__ raw_config stream_reader discovery_policy
  = Return self ->
  _catalog_schema self = Some ∅.
Proof.
  unfold __init__. destruct (FileBasedStreamConfig raw_config); [|done].
  by intros [= <-].
Qed.

(** * Further properties of the stream *)

(** ** The inference loop: progress and the merged result *)

Lemma warnings_app tr1 tr2 :
  warnings (tr1 ++ tr2) = warnings tr1 ++ warnings tr2.
Proof. apply omap_app. Qed.

Lemma warnings_launch l : warnings (map EvInferFile l) = [].
Proof. induction l as [|f l IH]; [done|]. by cbn. Qed.

(** The schemas of the tasks that [merge_done] folded into the
    accumulator. *)
Lemma merge_done_fold self done base base' :
  merge_done self done base = Return base' ->
  exists schemas,
    Forall2 (fun t s => task_result self t = Return s) done schemas /\
    base' = foldl merge_schemas base schemas.
Proof.
  revert base. induction done as [|d done IH]; intros base H; cbn in H.
  - inversion H; subst. by exists [].
  - destruct (task_result self d) as [s|e] eqn:E; [|done].
    destruct (IH _ H) as (schemas & Hall & ->).
    exists (s :: schemas). split; [by constructor|done].
Qed.

(** Every round awaits at least one task and completes at least one, so
    the loop awaits at most once per task; it logs nothing; and the schema
    it returns is the accumulator with the schema of every pending task and
    of every remaining file folded in, each exactly once, in the order of
    completion. *)
Lemma loop_progress fuel :
  forall self sched files pending n_started n_files base w,
  0 <= n_concurrent_requests (_discovery_policy self) ->
  (n_started + length files = n_files)%nat ->
  (length files + length pending <= fuel)%nat ->
  exists r w' tr,
    _infer_schema_loop fuel self sched files pending n_started n_files base w
    = Some (r, w') /\
    trace w' = trace w ++ tr /\
    (length (awaits tr) <= length files + length pending)%nat /\
    Forall (fun m => (1 <= m)%nat) (awaits tr) /\
    warnings tr = [] /\
    (forall schema, r = Return schema ->
       exists order schemas,
         order ≡ₚ map task_file pending ++ files /\
         Forall2 (fun f s => _infer_file_schema self f = Return s)
                 order schemas /\
         schema = foldl merge_schemas base schemas).
Proof.
  induction fuel as [|fuel IH];
    intros self sched files pending n_started n_files base w Hn Hinv Hfuel.
  all: destruct (decide (pending = [] /\ files = [])) as [[-> ->]|Hcond].
  1, 3: cbn in Hinv; rewrite Nat.add_0_r in Hinv; subst n_started;
    exists (Return base), w, []; rewrite loop_exit, app_nil_r;
    do 2 (split; [done|]); split; [cbn; lia|]; split; [by constructor|];
    split; [done|]; intros schema [= <-]; by exists [], [].
  { destruct files, pending; cbn in Hfuel; try lia. by destruct Hcond. }
  assert (pending <> [] \/ files <> []) as Hcond'.
  { destruct pending; [right|by left]. intros ->. by apply Hcond. }
  clear Hcond.
  destruct (loop_round fuel self sched files pending n_started
              n_files base w Hn Hinv Hcond')
    as (launched & files1 & tasks & done & pending2 & w2 & Hfiles & Hmap
        & Hdone & Hperm & Htr & Hc & Hb & _ & Hstep).
  rewrite Hstep; clear Hstep.
  assert (length done + length pending2
          = length pending + length tasks)%nat as Hlen.
  { rewrite <- !length_app. by rewrite Hperm. }
  assert (length tasks = length launched) as Hlt.
  { rewrite <- Hmap. by rewrite length_map. }
  assert (0 < length done)%nat as Hd by (destruct done; [done|cbn; lia]).
  assert (length files = length launched + length files1)%nat as Hlf.
  { subst files. by rewrite length_app. }
  assert (1 <= length (pending ++ tasks))%nat as Hone.
  { rewrite length_app. lia. }
  destruct (merge_done self done base) as [base'|e] eqn:Em.
  2: { exists (Raise e), w2, (map EvInferFile launched
                                ++ [EvAwait (length (pending ++ tasks))]).
       do 2 (split; [done|]).
       rewrite awaits_app, warnings_app, awaits_launch, warnings_launch.
       cbn. split; [lia|]. split; [by repeat constructor|]. by split. }
  destruct (IH self (tl sched) files1 pending2
               (n_started + length launched)%nat n_files base' w2 Hn)
    as (r & w' & tr & Hrun & Htr' & Hcount & Hpos & Hwarn & Hres);
    [lia | lia |].
  exists r, w', (map EvInferFile launched
                   ++ [EvAwait (length (pending ++ tasks))] ++ tr).
  split; [done|].
  split; [by rewrite Htr', Htr, <- !app_assoc|].
  rewrite !awaits_app, !warnings_app, awaits_launch, warnings_launch.
  change (awaits [EvAwait ?n]) with [n].
  change (warnings [EvAwait _]) with (@nil LogRecord).
  cbn [app length].
  split; [lia|]. split; [by constructor|]. split; [done|].
  intros schema ->.
  destruct (Hres schema eq_refl) as (order & schemas & Hord & Hall & ->).
  destruct (merge_done_fold self done base base' Em)
    as (schemas0 & Hall0 & ->).
  exists (map task_file done ++ order), (schemas0 ++ schemas).
  split.
  - rewrite Hord, app_assoc, <- map_app, Hperm, map_app, Hmap, Hfiles.
    by rewrite <- app_assoc.
  - split; [|by rewrite foldl_app].
    apply Forall2_app; [|done].
    clear -Hall0. induction Hall0; cbn; constructor; auto.
Qed.

Lemma _infer_schema_progress self sched files w :
  0 <= n_concurrent_requests (_discovery_policy self) ->
  exists r w' tr,
    _infer_schema self sched files w = Some (r, w') /\
    trace w' = trace w ++ tr /\
    (length (awaits tr) <= length files)%nat /\
    Forall (fun m => (1 <= m)%nat) (awaits tr) /\
    warnings tr = [] /\
    (forall schema, r = Return schema ->
       exists order schemas,
         order ≡ₚ files /\
         Forall2 (fun f s => _infer_file_schema self f = Return s)
                 order schemas /\
         schema = foldl merge_schemas ∅ schemas).
Proof.
  intros Hn. unfold _infer_schema.
  destruct (loop_progress (length files) self sched files [] O (length files)
              ∅ w Hn) as (r & w' & tr & Hrun & Htr & Hcount & Hpos & Hw & Hr);
    [done|cbn; lia|].
  exists r, w', tr. cbn in Hcount. rewrite Nat.add_0_r in Hcount.
  by do 5 (split; [done|]).
Qed.

(** In any run with a limit that is not negative, from any world and under
    any schedule, the set [pending_tasks] that the call hands to
    [asyncio.wait] has, each time, between 1 and [n_concurrent_requests + 1]
    tasks; the call awaits at most once per file, and ends.  This counts
    the tasks of the call itself, not whatever else the event loop still
    holds (such as tasks left behind by an earlier call that raised). *)
Theorem infer_schema_awaited_set_bounds self sched files w :
  0 <= n_concurrent_requests (_discovery_policy self) ->
  exists r w' tr,
    _infer_schema self sched files w = Some (r, w') /\
    trace w' = trace w ++ tr /\
    Forall (fun m => 1 <= Z.of_nat m
                     <= n_concurrent_requests (_discovery_policy self) + 1)
           (awaits tr) /\
    (length (awaits tr) <= length files)%nat.
Proof.
  intros Hn.
  destruct (_infer_schema_spec self sched files w Hn)
    as (r & w' & tr & Hrun & Htr & _ & _ & _ & Hup & _).
  destruct (_infer_schema_progress self sched files w Hn)
    as (r2 & w2 & tr2 & Hrun2 & Htr2 & Hcount & Hlow & _).
  rewrite Hrun in Hrun2. inversion Hrun2; subst r2 w2. clear Hrun2.
  rewrite Htr in Htr2. apply app_inv_head in Htr2. subst tr2.
  exists r, w', tr. do 2 (split; [done|]). split; [|done].
  rewrite Forall_forall in Hup, Hlow |- *. intros m Hm.
  specialize (Hup m Hm). specialize (Hlow m Hm). cbn beta in *. lia.
Qed.

(** With a negative limit and at least one file, [infer_schema] raises the
    [ValueError] of [asyncio.wait] on an empty set: no task is created and
    the world is left as it was. *)
Theorem infer_schema_negative_limit_raises self sched files w :
  n_concurrent_requests (_discovery_policy self) < 0 ->
  files <> [] ->
  exists e,
    infer_schema self sched files w = Some (Raise e, w) /\
    exc_class e = ValueError.
Proof.
  intros Hn Hne. unfold infer_schema.
  by apply _infer_schema_negative_limit.
Qed.

(** For a non-negative limit, the call returns a schema under a schedule
    exactly when the parser infers a schema for every file of the list; in
    particular whether it returns does not depend on the schedule. *)
Theorem infer_schema_returns_iff self sched files w :
  0 <= n_concurrent_requests (_discovery_policy self) ->
  (exists schema w', _infer_schema self sched files w
                     = Some (Return schema, w'))
  <-> (forall file, file ∈ files ->
         exists s,
           infer_schema_of (_get_parser (Config.file_type (config self)))
                           file (_stream_reader self) = Return s).
Proof.
  intros Hn.
  destruct (_infer_schema_spec self sched files w Hn)
    as (r & w' & tr & Hrun & _ & _ & Hpre & _ & _ & Hr).
  split.
  - intros (schema & w1 & Hret). rewrite Hrun in Hret.
    inversion Hret; subst r w1. destruct Hr as [_ Hall].
    intros file Hin. destruct (Hall file Hin) as (s & Hs).
    unfold _infer_file_schema in Hs.
    destruct (infer_schema_of _ file _) as [s'|e]; [by exists s'|done].
  - intros Hall. destruct r as [schema|e]; [by exists schema, w'|].
    destruct Hr as (f & Hf & He).
    assert (f ∈ files) as Hin.
    { destruct Hpre as (rest & ->). apply elem_of_app. by left. }
    destruct (Hall f Hin) as (s & Hs).
    unfold _infer_file_schema in He. by rewrite Hs in He.
Qed.

(** For every limit: what a returned schema is made of. *)
Lemma _infer_schema_fold self sched files w schema w' :
  _infer_schema self sched files w = Some (Return schema, w') ->
  exists order schemas,
    order ≡ₚ files /\
    Forall2 (fun f s => _infer_file_schema self f = Return s)
            order schemas /\
    schema = foldl merge_schemas ∅ schemas.
Proof.
  intros Hret.
  destruct (Z.le_gt_cases 0 (n_concurrent_requests (_discovery_policy self)))
    as [Hn|Hn].
  - destruct (_infer_schema_progress self sched files w Hn)
      as (r & w1 & tr & Hrun & _ & _ & _ & _ & Hr).
    rewrite Hret in Hrun. inversion Hrun; subst r w1.
    by apply Hr.
  - destruct files as [|file files'].
    + inversion Hret; subst. by exists [], [].
    + destruct (_infer_schema_negative_limit self sched (file :: files') w Hn)
        as (e & Hrun & _); [done|].
      by rewrite Hret in Hrun.
Qed.

Lemma _infer_file_schema_return self file s :
  _infer_file_schema self file = Return s ->
  infer_schema_of (_get_parser (Config.file_type (config self)))
                  file (_stream_reader self) = Return s.
Proof.
  unfold _infer_file_schema.
  destruct (infer_schema_of _ file _); [congruence|done].
Qed.

(** A returned schema is the left fold of [merge_schemas], from the empty
    schema, over the schemas the parser infers for the files, taken in
    some order (the order of completion): the schema of every file is
    merged exactly once. *)
Theorem infer_schema_merges_every_file self sched files w schema w' :
  _infer_schema self sched files w = Some (Return schema, w') ->
  exists order schemas,
    order ≡ₚ files /\
    Forall2 (fun file s =>
               infer_schema_of (_get_parser (Config.file_type (config self)))
                               file (_stream_reader self) = Return s)
            order schemas /\
    schema = foldl merge_schemas ∅ schemas.
Proof.
  intros Hret.
  destruct (_infer_schema_fold self sched files w schema w' Hret)
    as (order & schemas & Hord & Hall & ->).
  exists order, schemas. split; [done|]. split; [|done].
  eapply Forall2_impl; [exact Hall|].
  intros f s Hs. by apply _infer_file_schema_return.
Qed.

Lemma foldl_permutation {A B} (f : B -> A -> B) (l1 l2 : list A) :
  (forall b x y, f (f b x) y = f (f b y) x) ->
  l1 ≡ₚ l2 -> forall b, foldl f b l1 = foldl f b l2.
Proof.
  intros Hf Hp. induction Hp as [|x l1 l2 _ IH|x y l|l1 l2 l3 _ IH1 _ IH2];
    intros b; cbn.
  - done.
  - apply IH.
  - by rewrite Hf.
  - by rewrite IH1, IH2.
Qed.

(** When merging is insensitive to the order in which two schemas are
    merged in, the inferred schema does not depend on the order in which
    the tasks complete: two runs on the same files that both return,
    return the same schema. *)
Theorem infer_schema_order_independent self sched1 sched2 files w1 w2
        schema1 schema2 w1' w2' :
  (forall a b c,
      merge_schemas (merge_schemas a b) c
      = merge_schemas (merge_schemas a c) b) ->
  _infer_schema self sched1 files w1 = Some (Return schema1, w1') ->
  _infer_schema self sched2 files w2 = Some (Return schema2, w2') ->
  schema1 = schema2.
Proof.
  intros Hcomm Hrun1 Hrun2.
  set (schema_of file :=
         match _infer_file_schema self file with
         | Return s => s
         | Raise _ => ∅
         end).
  assert (forall sched w schema w',
             _infer_schema self sched files w = Some (Return schema, w') ->
             exists order,
               order ≡ₚ files /\
               schema = foldl merge_schemas ∅ (map schema_of order)) as Hfold.
  { intros sched w schema w' Hrun.
    destruct (_infer_schema_fold self sched files w schema w' Hrun)
      as (order & schemas & Hord & Hall & ->).
    exists order. split; [done|]. f_equal.
    clear -Hall. induction Hall as [|f s order schemas Hf _ IH]; [done|].
    cbn. rewrite <- IH. f_equal. unfold schema_of. by rewrite Hf. }
  destruct (Hfold _ _ _ _ Hrun1) as (order1 & Hord1 & ->).
  destruct (Hfold _ _ _ _ Hrun2) as (order2 & Hord2 & ->).
  apply foldl_permutation; [done|].
  apply Permutation_map. by rewrite Hord1, Hord2.
Qed.

(** ** Discovery: listing, failures and empty samples *)

Lemma _infer_schema_quiet self sched files w :
  exists r w' tr,
    _infer_schema self sched files w = Some (r, w') /\
    trace w' = trace w ++ tr /\
    same_caches w w' /\
    listings tr = [] /\
    warnings tr = [].
Proof.
  destruct (_infer_schema_launches self sched files w)
    as (r & w' & tr & Hrun & Htr & Hc & _ & Hl & _).
  exists r, w', tr. do 4 (split; [done|]).
  destruct (Z.le_gt_cases 0 (n_concurrent_requests (_discovery_policy self)))
    as [Hn|Hn].
  - destruct (_infer_schema_progress self sched files w Hn)
      as (r2 & w2 & tr2 & Hrun2 & Htr2 & _ & _ & Hw & _).
    rewrite Hrun in Hrun2. inversion Hrun2; subst r2 w2.
    rewrite Htr in Htr2. apply app_inv_head in Htr2. by subst tr2.
  - destruct files as [|file files'].
    + inversion Hrun; subst. rewrite <- (app_nil_r (trace w')) in Htr at 1.
      apply app_inv_head in Htr. by subst tr.
    + destruct (_infer_schema_negative_limit self sched (file :: files') w Hn)
        as (e & Hrun2 & _); [done|].
      rewrite Hrun in Hrun2. inversion Hrun2; subst.
      rewrite <- (app_nil_r (trace w)) in Htr at 1.
      apply app_inv_head in Htr. by subst tr.
Qed.

(** A first call without declared schema, spelled out: the listing, the
    warning if the listing is cut, inference on the sample, and the store
    of a returned schema. *)
Lemma get_json_schema_first_call self sched w files w0 :
  truthy (Config.input_schema (config self)) = false ->
  get_json_schema_cache w = None ->
  list_files self w = Some (Return files, w0) ->
  let k := max_n_files_for_schema_inference (_discovery_policy self) in
  let cut := Z.of_nat (length files) >? k in
  let sample :=
    if cut then slice_to k (sorted_reverse last_modified files) else files in
  let w1 :=
    if cut
    then record_event (EvWarning (RefusingToInfer (length sample) k)) w0
    else w0 in
  get_json_schema self sched w
  = match infer_schema self sched sample w1 with
    | Some (Return schema, w2) =>
        Some (Return schema,
              {| trace := trace w2;
                 get_json_schema_cache := Some schema;
                 list_files_cache := list_files_cache w2;
                 loop_tasks := loop_tasks w2;
                 next_task_id := next_task_id w2 |})
    | Some (Raise e, w2) => Some (Raise e, w2)
    | None => None
    end.
Proof.
  intros Htruthy Hcache Hlist k cut sample w1.
  unfold get_json_schema. rewrite Hcache.
  unfold get_json_schema__wrapped__. rewrite Htruthy.
  unfold mbind at 1, M_bind at 1.
  rewrite (bind_return _ _ _ _ _ Hlist). subst w1 sample cut k.
  destruct (Z.of_nat (length files) >? _).
  - erewrite (bind_return (emit _)); [|reflexivity].
    by destruct (infer_schema _ _ _ _) as [[[schema|e] w2]|].
  - by destruct (infer_schema _ _ _ _) as [[[schema|e] w2]|].
Qed.

(** On an empty cache [list_files] asks the reader once, for all files
    matching the globs (no lower bound on the modification time), and
    stores the answer: calling it again returns the same list and leaves
    the world, hence the trace of reader calls, unchanged. *)
Theorem list_files_lists_once self w :
  list_files_cache w = None ->
  exists w1,
    list_files self w
    = Some (Return (list_matching_files (_stream_reader self)
                      (Config.globs (config self)) None), w1) /\
    trace w1
    = trace w ++ [EvListMatchingFiles (Config.globs (config self)) None] /\
    list_files self w1
    = Some (Return (list_matching_files (_stream_reader self)
                      (Config.globs (config self)) None), w1).
Proof.
  intros Hnone. unfold list_files at 1. rewrite Hnone.
  eexists. split; [reflexivity|]. split; [reflexivity|].
  reflexivity.
Qed.

(** The reader calls of [get_json_schema], whatever path it takes. *)
Lemma get_json_schema_listing self sched w :
  exists r w' tr,
    get_json_schema self sched w = Some (r, w') /\
    trace w' = trace w ++ tr /\
    (listings tr = [] \/
     listings tr = [(Config.globs (config self), None)]) /\
    (list_files_cache w <> None -> listings tr = []).
Proof.
  destruct (get_json_schema_cache w) as [cached|] eqn:Hcache.
  { exists (Return cached), w, []. unfold get_json_schema. rewrite Hcache.
    rewrite app_nil_r. split; [done|]. split; [done|]. by split; [left|]. }
  destruct (truthy (Config.input_schema (config self))) eqn:Htruthy.
  { unfold get_json_schema. rewrite Hcache.
    unfold get_json_schema__wrapped__. rewrite Htruthy. cbn.
    eexists _, _, []. split; [reflexivity|]. cbn. rewrite app_nil_r.
    split; [done|]. by split; [left|]. }
  destruct (list_files_spec self w)
    as (files & w0 & tr0 & Hlist & Htr0 & _ & _ & _ & Hhit).
  rewrite (get_json_schema_first_call self sched w files w0 Htruthy Hcache
             Hlist).
  cbv zeta.
  set (k := max_n_files_for_schema_inference (_discovery_policy self)).
  set (sample := if Z.of_nat (length files) >? k
                 then slice_to k (sorted_reverse last_modified files)
                 else files).
  set (w1 := if Z.of_nat (length files) >? k
             then record_event
                    (EvWarning (RefusingToInfer (length sample) k)) w0
             else w0).
  assert (exists tr1, trace w1 = trace w ++ tr1 /\
                      listings tr1 = listings tr0) as (tr1 & Htr1 & Hl1).
  { subst w1. destruct (Z.of_nat (length files) >? k).
    - exists (tr0 ++ [EvWarning (RefusingToInfer (length sample) k)]).
      cbn. rewrite Htr0, <- app_assoc. split; [done|].
      rewrite listings_app. cbn. by rewrite app_nil_r.
    - by exists tr0. }
  assert (listings tr0 = [] \/
          listings tr0 = [(Config.globs (config self), None)]) as Hl0.
  { unfold list_files in Hlist.
    destruct (list_files_cache w) as [cached|].
    - inversion Hlist; subst. left.
      rewrite <- (app_nil_r (trace w0)) in Htr0 at 1.
      apply app_inv_head in Htr0. by subst tr0.
    - cbn in Hlist. inversion Hlist; subst. cbn in Htr0.
      apply app_inv_head in Htr0. subst tr0. by right. }
  assert (list_files_cache w <> None -> listings tr0 = []) as Hhit0.
  { intros Hsome. destruct (list_files_cache w) as [cached|]; [|done].
    destruct Hhit as [_ ->].
    rewrite <- (app_nil_r (trace w)) in Htr0 at 1.
    apply app_inv_head in Htr0. by subst tr0. }
  unfold infer_schema.
  destruct (_infer_schema_quiet self sched sample w1)
    as (r & w2 & tr2 & Hrun & Htr2 & _ & Hl2 & _).
  rewrite Hrun.
  assert (listings (tr1 ++ tr2) = listings tr0) as Hl.
  { by rewrite listings_app, Hl1, Hl2, app_nil_r. }
  destruct r as [schema|e].
  - eexists _, _, (tr1 ++ tr2). split; [reflexivity|]. cbn.
    split; [by rewrite Htr2, Htr1, <- app_assoc|].
    rewrite Hl. by split.
  - exists (Raise e), w2, (tr1 ++ tr2). split; [done|].
    split; [by rewrite Htr2, Htr1, <- app_assoc|].
    rewrite Hl. by split.
Qed.

(** [get_json_schema] ends for every stream, world and schedule; it calls
    the reader at most once, always without a lower bound, and not at all
    when [list_files] has a cached listing. *)
Theorem get_json_schema_lists_at_most_once self sched w :
  exists r w' tr,
    get_json_schema self sched w = Some (r, w') /\
    trace w' = trace w ++ tr /\
    (length (listings tr) <= 1)%nat /\
    Forall (fun l => l = (Config.globs (config self), None)) (listings tr) /\
    (list_files_cache w <> None -> listings tr = []).
Proof.
  destruct (get_json_schema_listing self sched w)
    as (r & w' & tr & Hrun & Htr & Hl & Hhit).
  exists r, w', tr. do 2 (split; [done|]).
  destruct Hl as [Hl|Hl]; rewrite Hl in *; cbn.
  - split; [lia|]. split; [constructor|done].
  - split; [lia|]. split; [by repeat constructor|done].
Qed.

(** An exception is not memoised, but the listing made on the way is: when
    [get_json_schema] raises, the schema cache is still empty and the
    listing is cached, so a later call infers again (on the same listing)
    without asking the reader. *)
Theorem get_json_schema_failure_not_cached self sched w e w1 :
  get_json_schema self sched w = Some (Raise e, w1) ->
  get_json_schema_cache w1 = None /\
  list_files_cache w1 <> None /\
  forall sched',
    exists r w2 tr,
      get_json_schema self sched' w1 = Some (r, w2) /\
      trace w2 = trace w1 ++ tr /\
      listings tr = [].
Proof.
  intros Hfail.
  destruct (get_json_schema_cache w) as [cached|] eqn:Hcache.
  { unfold get_json_schema in Hfail. by rewrite Hcache in Hfail. }
  destruct (truthy (Config.input_schema (config self))) eqn:Htruthy.
  { unfold get_json_schema in Hfail. rewrite Hcache in Hfail.
    unfold get_json_schema__wrapped__ in Hfail. by rewrite Htruthy in Hfail. }
  destruct (list_files_spec self w)
    as (files & w0 & tr0 & Hlist & _ & _ & Hs0 & Hl0 & _).
  rewrite (get_json_schema_first_call self sched w files w0 Htruthy Hcache
             Hlist) in Hfail.
  cbv zeta in Hfail.
  set (k := max_n_files_for_schema_inference (_discovery_policy self)) in *.
  set (sample := if Z.of_nat (length files) >? k
                 then slice_to k (sorted_reverse last_modified files)
                 else files) in *.
  set (w1' := if Z.of_nat (length files) >? k
              then record_event
                     (EvWarning (RefusingToInfer (length sample) k)) w0
              else w0) in *.
  assert (get_json_schema_cache w1' = None /\
          list_files_cache w1' = Some files) as [Hs1 Hl1].
  { subst w1'. destruct (Z.of_nat (length files) >? k); cbn;
      by rewrite Hs0, Hcache, Hl0. }
  unfold infer_schema in Hfail.
  destruct (_infer_schema_quiet self sched sample w1')
    as (r & w2 & tr2 & Hrun & _ & [Hcs Hcl] & _).
  rewrite Hrun in Hfail. destruct r as [schema|e']; [done|].
  inversion Hfail; subst e' w2. clear Hfail.
  rewrite Hs1 in Hcs. rewrite Hl1 in Hcl.
  split; [done|]. split; [by rewrite Hcl|].
  intros sched'.
  destruct (get_json_schema_listing self sched' w1)
    as (r & w2 & tr & Hrun' & Htr & _ & Hnone).
  exists r, w2, tr. do 2 (split; [done|]). apply Hnone. by rewrite Hcl.
Qed.

Lemma list_files_trace self w files w0 :
  list_files self w = Some (Return files, w0) ->
  exists tr0,
    trace w0 = trace w ++ tr0 /\
    inferred_files tr0 = [] /\ awaits tr0 = [] /\ warnings tr0 = [].
Proof.
  unfold list_files. destruct (list_files_cache w) as [cached|].
  - intros [= <- <-]. exists []. by rewrite app_nil_r.
  - cbn. intros [= <- <-]. by eexists [_].
Qed.

(** When no file is listed, or when the policy allows no file at all for
    inference, a first call returns the empty schema [{}] and memoises it:
    no inference is launched and nothing is awaited, whatever the files
    contain. *)
Theorem get_json_schema_empty_sample self sched w files w0 :
  truthy (Config.input_schema (config self)) = false ->
  get_json_schema_cache w = None ->
  list_files self w = Some (Return files, w0) ->
  files = [] \/ max_n_files_for_schema_inference (_discovery_policy self) = 0 ->
  exists w' tr,
    get_json_schema self sched w = Some (Return ∅, w') /\
    get_json_schema_cache w' = Some ∅ /\
    trace w' = trace w ++ tr /\
    inferred_files tr = [] /\
    awaits tr = [].
Proof.
  intros Htruthy Hcache Hlist Hempty.
  rewrite (get_json_schema_first_call self sched w files w0 Htruthy Hcache
             Hlist).
  cbv zeta.
  set (k := max_n_files_for_schema_inference (_discovery_policy self)) in *.
  assert ((if Z.of_nat (length files) >? k
           then slice_to k (sorted_reverse last_modified files)
           else files) = []) as ->.
  { destruct Hempty as [->|Hk].
    - destruct (_ >? _); [|done]. unfold slice_to.
      destruct (0 <=? k); apply take_nil.
    - rewrite Hk. destruct (Z.gtb_spec (Z.of_nat (length files)) 0) as [_|Hle].
      + by rewrite slice_to_nonneg.
      + destruct files; [done|cbn in Hle; lia]. }
  destruct (list_files_trace self w files w0 Hlist)
    as (tr0 & Htr0 & Hi0 & Ha0 & _).
  unfold infer_schema, _infer_schema. cbn [length _infer_schema_loop].
  destruct (Z.of_nat (length files) >? k); cbn.
  - eexists _, (tr0 ++ [_]). split; [reflexivity|]. cbn.
    split; [done|]. split; [by rewrite Htr0, <- app_assoc|].
    rewrite inferred_files_app, awaits_app, Hi0, Ha0. by split.
  - eexists _, tr0. split; [reflexivity|]. cbn. by split.
Qed.

(** A first call logs a warning exactly when the listing is longer than
    the maximum.  The warning then reports, as the number of files it
    refuses to infer on, the length of the list after the cut, next to the
    maximum: that length is the maximum itself when the maximum is not
    negative, and the number of files listed less the absolute value of
    the maximum (or 0) when it is negative, in which case the warning is
    logged whatever the listing. *)
Theorem get_json_schema_warns_when_cut self sched w files w0 :
  truthy (Config.input_schema (config self)) = false ->
  get_json_schema_cache w = None ->
  list_files self w = Some (Return files, w0) ->
  let k := max_n_files_for_schema_inference (_discovery_policy self) in
  exists r w' tr,
    get_json_schema self sched w = Some (r, w') /\
    trace w' = trace w ++ tr /\
    (Z.of_nat (length files) <= k -> warnings tr = []) /\
    (0 <= k < Z.of_nat (length files) ->
     warnings tr = [RefusingToInfer (Z.to_nat k) k]) /\
    (k < 0 ->
     warnings tr = [RefusingToInfer (length files - Z.to_nat (- k)) k]).
Proof.
  intros Htruthy Hcache Hlist k.
  rewrite (get_json_schema_first_call self sched w files w0 Htruthy Hcache
             Hlist).
  cbv zeta. fold k.
  destruct (list_files_trace self w files w0 Hlist)
    as (tr0 & Htr0 & _ & _ & Hw0).
  set (sample := if Z.of_nat (length files) >? k
                 then slice_to k (sorted_reverse last_modified files)
                 else files).
  set (w1 := if Z.of_nat (length files) >? k
             then record_event
                    (EvWarning (RefusingToInfer (length sample) k)) w0
             else w0).
  assert (exists tr1,
             trace w1 = trace w ++ tr1 /\
             (Z.of_nat (length files) <= k -> warnings tr1 = []) /\
             (0 <= k < Z.of_nat (length files) ->
              warnings tr1 = [RefusingToInfer (Z.to_nat k) k]) /\
             (k < 0 ->
              warnings tr1
              = [RefusingToInfer (length files - Z.to_nat (- k)) k]))
    as (tr1 & Htr1 & Hno & Hyes & Hneg).
  { subst w1 sample.
    destruct (Z.gtb_spec (Z.of_nat (length files)) k) as [Hgt|Hle].
    - eexists (tr0 ++ [_]). cbn. rewrite Htr0, <- app_assoc.
      split; [done|]. split; [lia|]. split.
      + intros Hk. rewrite warnings_app, Hw0. cbn.
        rewrite slice_to_nonneg by lia.
        rewrite length_take_le; [done|].
        rewrite sorted_reverse_length. lia.
      + intros Hk. rewrite warnings_app, Hw0. cbn.
        unfold slice_to. destruct (Z.leb_spec 0 k) as [?|_]; [lia|].
        rewrite length_take_le, sorted_reverse_length; [done|lia].
    - exists tr0. split; [done|]. split; [done|]. split; lia. }
  unfold infer_schema.
  destruct (_infer_schema_quiet self sched sample w1)
    as (r & w2 & tr2 & Hrun & Htr2 & _ & _ & Hw2).
  rewrite Hrun.
  assert (warnings (tr1 ++ tr2) = warnings tr1) as Hw.
  { by rewrite warnings_app, Hw2, app_nil_r. }
  destruct r as [schema|e].
  - eexists _, _, (tr1 ++ tr2). split; [reflexivity|]. cbn.
    split; [by rewrite Htr2, Htr1, <- app_assoc|].
    rewrite Hw. by repeat split.
  - exists (Raise e), w2, (tr1 ++ tr2). split; [done|].
    split; [by rewrite Htr2, Htr1, <- app_assoc|].
    rewrite Hw. by repeat split.
Qed.

(** ** Extraction: failures, accounting and effects *)

Lemma files_read_stops failure before file after e :
  (forall f, f ∈ before -> failure f = None) ->
  failure file = Some e ->
  files_read failure (before ++ file :: after) = (before ++ [file], Some e).
Proof.
  intros Hok Hfail. induction before as [|f before IH]; cbn.
  - by rewrite Hfail.
  - rewrite (Hok f) by (by left).
    rewrite IH; [done|]. intros g Hg. apply Hok. by right.
Qed.

Lemma record_warnings_projections (l : list AnyMapping) :
  let evs := map (fun record => EvWarning (RecordDidNotPass record)) l in
  warnings evs = map RecordDidNotPass l /\
  listings evs = [] /\ inferred_files evs = [] /\ awaits evs = [].
Proof.
  induction l as [|r l (H1 & H2 & H3 & H4)]; [done|].
  cbn in *. repeat split; [|done..]. f_equal. exact H1.
Qed.

Lemma validation_diagnostics_projections passes emitted files :
  warnings (validation_diagnostics passes emitted files)
  = map RecordDidNotPass
        (flat_map (fun file =>
                     List.filter (fun record => negb (passes record))
                                 (emitted file)) files) /\
  listings (validation_diagnostics passes emitted files) = [] /\
  inferred_files (validation_diagnostics passes emitted files) = [] /\
  awaits (validation_diagnostics passes emitted files) = [].
Proof.
  unfold validation_diagnostics.
  induction files as [|file files (IH1 & IH2 & IH3 & IH4)]; [done|].
  cbn [flat_map].
  destruct (record_warnings_projections
              (List.filter (fun record => negb (passes record))
                           (emitted file))) as (H1 & H2 & H3 & H4).
  cbv zeta in *.
  rewrite warnings_app, listings_app, inferred_files_app, awaits_app,
    map_app, IH1, IH2, IH3, IH4, H1, H2, H3, H4.
  done.
Qed.


(** When the parser of a file raises, the generator ends with that very
    exception after the accepted records of the files before it and of
    what the failing file emitted before the error; no later file is
    parsed, yielded from or warned about. *)
Theorem read_records_stops_at_failing_parser self sync_mode cursor_field
        stream_slice stream_state schema w before file after e :
  let parser := _get_parser (Config.file_type (config self)) in
  let emitted f := (parse_records parser f (_stream_reader self)).1 in
  _catalog_schema self = Some schema ->
  (list_files_for_this_sync self stream_state w).1 = before ++ file :: after ->
  (forall f, f ∈ before ->
     (parse_records parser f (_stream_reader self)).2 = None) ->
  (parse_records parser file (_stream_reader self)).2 = Some e ->
  read_records self sync_mode cursor_field stream_slice stream_state w
  = ((validated_records (accepts self schema) emitted (before ++ [file]),
      Some e),
     record_events
       (validation_diagnostics (accepts self schema) emitted
          (before ++ [file]))
       (list_files_for_this_sync self stream_state w).2).
Proof.
  intros parser emitted Hschema Hfiles Hok Hfail.
  unfold read_records. rewrite Hschema.
  destruct (list_files_for_this_sync self stream_state w) as [fs w0] eqn:El.
  cbn [fst snd] in *. subst fs.
  rewrite for_file_in_spec. fold parser.
  by rewrite (files_read_stops _ before file after e Hok Hfail).
Qed.


(** A read with a schema in place calls the reader exactly once, with the
    globs of the stream and no lower bound, whether or not [list_files]
    holds a cached listing and whatever the stream state; it launches no
    inference, awaits nothing, and leaves both caches and the event loop
    as they were. *)
Theorem read_records_lists_once self sync_mode cursor_field stream_slice
        stream_state schema w :
  _catalog_schema self = Some schema ->
  exists g w' tr,
    read_records self sync_mode cursor_field stream_slice stream_state w
    = (g, w') /\
    trace w' = trace w ++ tr /\
    listings tr = [(Config.globs (config self), None)] /\
    inferred_files tr = [] /\
    awaits tr = [] /\
    same_caches w w' /\
    loop_tasks w' = loop_tasks w.
Proof.
  intros Hschema. unfold read_records. rewrite Hschema.
  rewrite list_files_for_this_sync_unbounded.
  rewrite for_file_in_spec.
  eexists _, _, (_ :: _). split; [reflexivity|].
  split; [cbn; by rewrite <- app_assoc|].
  match goal with
  | |- context [validation_diagnostics ?p ?em ?fs] =>
      destruct (validation_diagnostics_projections p em fs)
        as (_ & Hl & Hi & Ha)
  end.
  cbn [app].
  change (listings (EvListMatchingFiles ?g ?s :: ?l))
    with ((g, s) :: listings l).
  change (inferred_files (EvListMatchingFiles ?g ?s :: ?l))
    with (inferred_files l).
  change (awaits (EvListMatchingFiles ?g ?s :: ?l)) with (awaits l).
  rewrite Hl, Hi, Ha. by repeat split.
Qed.

End Stream.

(** ** The stream on a concrete source *)

Module Examples.
Import Scenario.

Local Abbreviation run_infer :=
  (_infer_schema no_parser csv_parser no_parser no_parser merge_schemas).
Local Abbreviation run_discover :=
  (get_json_schema no_parser csv_parser no_parser no_parser
                   merge_schemas type_mapping_to_jsonschema).
Local Abbreviation run_read :=
  (read_records no_parser csv_parser no_parser no_parser
                record_passes_validation_policy).

(** [C1]  With [n_concurrent_requests = 1] and two files to infer, under
    every schedule the call reaches an [await] with two inference tasks
    in flight: one more than the policy allows.  (The inner loop tests
    [len(pending_tasks) <= n_concurrent_requests] before it adds a
    task.) *)
Theorem infer_schema_exceeds_concurrency_limit (sched : Schedule) :
  n_concurrent_requests
    (_discovery_policy (stream "emit_record" None two_files 1 10)) = 1 /\
  exists r w',
    run_infer (stream "emit_record" None two_files 1 10) sched two_files
              fresh_world = Some (r, w') /\
    2%nat ∈ awaits (trace w').
Proof.
  split; [reflexivity|].
  destruct (in_flight_reaches no_parser csv_parser no_parser no_parser
              merge_schemas (stream "emit_record" None two_files 1 10)
              sched two_files fresh_world)
    as (r & w' & tr & m & Hrun & Htr & Hm & Hval); [done|done|].
  exists r, w'. split; [done|].
  rewrite Htr. cbn in Hval. assert (m = 2%nat) as -> by lia. done.
Qed.

Lemma bad_file_listed : file "bad.csv" 2 ∈ with_a_bad_file.
Proof. unfold with_a_bad_file. apply elem_of_cons. right. by left. Qed.

(** [C2, as stated]  With one request at a time allowed and the files
    [a.csv], [bad.csv], [c.csv], the call raises the
    [SchemaInferenceError] of [bad.csv] while the task of [c.csv] is
    still in the event loop: nothing cancels it. *)
Lemma siblings_are_not_cancelled :
  ~ fails_fast_and_cancels no_parser csv_parser no_parser no_parser
      merge_schemas (stream "emit_record" None with_a_bad_file 1 10) []
      with_a_bad_file fresh_world.
Proof.
  intros Hclaim.
  destruct (Hclaim (file "bad.csv" 2) _ bad_file_listed eq_refl)
    as (bad & exc & w' & _ & Hrun & Hloop).
  vm_compute in Hrun. inversion Hrun; subst w'. discriminate Hloop.
Qed.

Lemma infer_schema_fails_fast_witness :
  exists bad exc w',
    bad ∈ with_a_bad_file /\
    infer_schema_of csv_parser bad (catalog_reader with_a_bad_file)
    = Raise exc /\
    run_infer (stream "emit_record" None with_a_bad_file 1 10) []
              with_a_bad_file fresh_world
    = Some (Raise (Exc SchemaInferenceError
                       ("Error inferring schema for file: " +:+ uri bad)
                       (Some exc)), w').
Proof.
  destruct (infer_schema_fails_fast no_parser csv_parser no_parser
              no_parser merge_schemas
              (stream "emit_record" None with_a_bad_file 1 10) []
              with_a_bad_file fresh_world (file "bad.csv" 2)
              (Exc OtherException "malformed header" None))
    as (bad & exc & w' & Hin & Hbad & Hrun & _);
    [cbn; lia | exact bad_file_listed | reflexivity |].
  by exists bad, exc, w'.
Defined.

(** [C4]  A stream that was just constructed, on which no schema was
    ever resolved, does not raise [MissingSchemaError] when it is read:
    [__init__] stores the empty mapping, not [None], so the guard of
    [read_records] passes and all four rows of the two files are
    yielded. *)
Theorem read_records_without_schema_resolution :
  exists self,
    __init__ FileBasedStreamConfig (raw "emit_record" ∅)
             (catalog_reader two_files) (policy 1 10) = Return self /\
    (run_read self full_refresh None None None fresh_world).1
    = ([ {[ "x" := VInt 1 ]}; {[ "x" := VStr "a.csv" ]};
         {[ "x" := VInt 3 ]}; {[ "x" := VStr "c.csv" ]} ], None).
Proof. eexists. split; [reflexivity|]. vm_compute. reflexivity. Qed.

(** [C6]  A stream state that carries the cursor instant 5 selects all
    three files modified at 4, 5 and 6, although the reader, asked for
    the files modified at or after 5, lists only the last two:
    [_get_datetime_from_stream_state] returns [None] whatever the
    state. *)
Theorem list_files_for_this_sync_ignores_cursor :
  (list_files_for_this_sync
     (stream "emit_record" None around_the_cursor 1 10)
     (Some {[ "start" := VInt 5 ]}) fresh_world).1
  = [file "t4.csv" 4; file "t5.csv" 5; file "t6.csv" 6] /\
  list_matching_files (catalog_reader around_the_cursor) ["*.csv"] (Some 5)
  = [file "t5.csv" 5; file "t6.csv" 6].
Proof. split; vm_compute; reflexivity. Qed.

(** [C7, as stated]  A configuration that declares the empty mapping as
    its input schema does carry a declared schema, yet [get_json_schema]
    lists the files and infers: the test [if self.config.input_schema]
    is one of truth value, and the empty mapping is false. *)
Lemma empty_declared_schema_is_inferred :
  ~ declared_schema_short_circuits no_parser csv_parser no_parser
      no_parser merge_schemas type_mapping_to_jsonschema
      (stream "emit_record" (Some ∅) two_files 1 10) [] fresh_world.
Proof.
  intros Hclaim. destruct (Hclaim ∅ eq_refl) as (w' & Hrun & Htrace).
  vm_compute in Hrun. inversion Hrun.
Qed.

Lemma get_json_schema_declared_schema_witness :
  exists w',
    run_discover (stream "emit_record" (Some declared) two_files 1 10) []
                 fresh_world
    = Some (Return (type_mapping_to_jsonschema declared), w') /\
    trace w' = trace fresh_world.
Proof.
  apply (get_json_schema_declared_schema no_parser csv_parser no_parser
           no_parser merge_schemas type_mapping_to_jsonschema
           record_passes_validation_policy
           (stream "emit_record" (Some declared) two_files 1 10) []
           fresh_world declared).
  - reflexivity.
  - apply insert_non_empty.
  - apply reachable_fresh.
Defined.

Lemma get_json_schema_memoized_witness :
  exists schema w1,
    run_discover (stream "emit_record" None two_files 1 10) [] fresh_world
    = Some (Return schema, w1) /\
    run_discover (stream "emit_record" None two_files 1 10) [(1%nat, [])] w1
    = Some (Return schema, w1).
Proof.
  eexists _, _. split; [reflexivity|].
  apply (get_json_schema_memoized no_parser csv_parser no_parser
           no_parser merge_schemas type_mapping_to_jsonschema
           (stream "emit_record" None two_files 1 10) [] [(1%nat, [])]
           fresh_world).
  reflexivity.
Defined.

Lemma read_records_validated_witness :
  (run_read (stream "skip_record" None two_files 1 10) full_refresh None
            None None fresh_world).1
  = ([ {[ "x" := VInt 1 ]}; {[ "x" := VInt 3 ]} ], None) /\
  warnings (trace (run_read (stream "skip_record" None two_files 1 10)
                            full_refresh None None None fresh_world).2)
  = [ RecordDidNotPass {[ "x" := VStr "a.csv" ]};
      RecordDidNotPass {[ "x" := VStr "c.csv" ]} ].
Proof.
  destruct (read_records_validated no_parser csv_parser no_parser
              no_parser record_passes_validation_policy
              (stream "skip_record" None two_files 1 10) full_refresh None
              None None ∅ fresh_world eq_refl) as [-> _].
  split; vm_compute; reflexivity.
Defined.

Lemma get_json_schema_samples_latest_witness :
  exists schema w' tr (chosen : list (nat * RemoteFile)),
    run_discover (stream "emit_record" None six_files 1 2) [] fresh_world
    = Some (Return schema, w') /\
    trace w' = trace fresh_world ++ tr /\
    inferred_files tr = [file "e.csv" 7; file "b.csv" 5] /\
    inferred_files tr = map snd chosen /\
    Z.of_nat (length chosen) = 2 /\
    (forall p j g, p ∈ chosen ->
       [file "a.csv" 1; file "b.csv" 5; file "c.csv" 5; file "d.csv" 0;
        file "e.csv" 7] !! j = Some g ->
       j ∉ map fst chosen -> preferred p (j, g)).
Proof.
  destruct (get_json_schema_samples_latest no_parser csv_parser no_parser
              no_parser merge_schemas type_mapping_to_jsonschema
              (stream "emit_record" None six_files 1 2) [] fresh_world
              [file "a.csv" 1; file "b.csv" 5; file "c.csv" 5;
               file "d.csv" 0; file "e.csv" 7]
              (record_events [EvListMatchingFiles ["*.csv"] None]
                 {| trace := []; get_json_schema_cache := None;
                    list_files_cache :=
                      Some [file "a.csv" 1; file "b.csv" 5; file "c.csv" 5;
                            file "d.csv" 0; file "e.csv" 7];
                    loop_tasks := []; next_task_id := 0 |}))
    as (sample & r & w' & tr & Hrun & Htr & _ & _ & _ & Hreturns & _ & Hlong);
    [cbn; lia | reflexivity | reflexivity | reflexivity |].
  destruct Hlong as (chosen & Hs & Hl & _ & Hlisted & _ & Hpref); [cbn; lia|].
  destruct Hreturns as (schema & -> & Hall); [cbn; lia| |].
  { intros f Hf. rewrite Hs in Hf.
    apply list_elem_of_fmap in Hf as ([i g] & -> & Hin).
    apply Hlisted in Hin.
    destruct i as [|[|[|[|[|i]]]]]; cbn in Hin; inversion Hin;
      eexists; reflexivity. }
  exists schema, w', tr, chosen. split; [exact Hrun|]. split; [exact Htr|].
  split; [|by rewrite Hall].
  vm_compute in Hrun. injection Hrun as _ <-.
  cbn in Htr. subst tr. reflexivity.
Defined.

(** Construction on the concrete constructor: an ill-typed [name] is
    rejected, a well-formed mapping is accepted. *)
Lemma init_config_validation_witness :
  (exists exc,
     __init__ FileBasedStreamConfig
              (<[ "name" := VInt 7 ]> (raw "emit_record" ∅))
              (catalog_reader two_files) (policy 1 10)
     = Raise (Exc ConfigValidationError
                  "Error creating stream config object." (Some exc))) /\
  (exists self,
     __init__ FileBasedStreamConfig (raw "emit_record" ∅)
              (catalog_reader two_files) (policy 1 10) = Return self /\
     config self = stream_config "emit_record" None).
Proof.
  split.
  - eexists.
    apply (init_config_validation FileBasedStreamConfig
             (<[ "name" := VInt 7 ]> (raw "emit_record" ∅))
             (catalog_reader two_files) (policy 1 10)).
    reflexivity.
  - destruct (init_config_validation FileBasedStreamConfig
                (raw "emit_record" ∅) (catalog_reader two_files)
                (policy 1 10)) as [_ Hok].
    destruct (Hok (stream_config "emit_record" None) eq_refl)
      as (self & Hinit & Hconfig & _).
    by exists self.
Defined.
End Examples.

(** * Properties of the step runners *)

Module StepsFacts.
Import Steps.

Implicit Types (results : list StepResult) (log : list StepEvent)
         (items : list (OneOrMany StepAndArgs)).

Lemma scheduled_app log1 log2 :
  scheduled (log1 ++ log2) = scheduled log1 ++ scheduled log2.
Proof. apply omap_app. Qed.

Lemma infos_app log1 log2 : infos (log1 ++ log2) = infos log1 ++ infos log2.
Proof. apply omap_app. Qed.

Lemma scheduled_soonify (tasks : list Call) :
  scheduled (map Soonify tasks) = tasks.
Proof.
  unfold scheduled. induction tasks as [|t tasks IH]; [done|].
  cbn. by f_equal.
Qed.

Lemma infos_soonify (tasks : list Call) : infos (map Soonify tasks) = [].
Proof. induction tasks as [|t tasks IH]; [done|]. by cbn. Qed.

(** ** The task group *)

Lemma gather_return (tasks : list Call) values :
  gather tasks = Return values <->
  Forall2 (fun t v => task_value t = Return v) tasks values.
Proof.
  revert values. induction tasks as [|t tasks IH]; intros values; cbn.
  - split; [intros [= <-]; constructor|by inversion 1].
  - destruct (task_value t) as [v|e] eqn:Et.
    + destruct (gather tasks) as [vs|e] eqn:Eg.
      * split.
        -- intros [= <-]. constructor; [done|]. by apply IH.
        -- inversion 1 as [|? v' ? vs' Hv Hvs]; subst.
           apply IH in Hvs. congruence.
      * split; [done|]. inversion 1 as [|? v' ? vs' Hv Hvs]; subst.
        by apply IH in Hvs.
    + split; [done|]. inversion 1; congruence.
Qed.

Lemma gather_length (tasks : list Call) values :
  gather tasks = Return values -> length values = length tasks.
Proof. intros H. apply gather_return in H. symmetry. by eapply Forall2_length. Qed.

(** ** [run_steps] *)

Lemma existsb_is_failure results :
  existsb is_failure results = true <->
  exists r, r ∈ results /\ status r = FAILURE.
Proof.
  rewrite existsb_exists. split.
  - intros (r & Hin & Hf). exists r. split; [by apply list_elem_of_In|].
    unfold is_failure in Hf. by destruct (status r).
  - intros (r & Hin & Hf). exists r. split; [by apply list_elem_of_In|].
    unfold is_failure. by rewrite Hf.
Qed.

Lemma existsb_is_failure_false results :
  existsb is_failure results = false <->
  Forall (fun r => status r <> FAILURE) results.
Proof.
  rewrite Forall_forall. split.
  - intros Hno r Hin Hf.
    assert (existsb is_failure results = true) as Hyes.
    { apply existsb_is_failure. by exists r. }
    congruence.
  - intros Hall. destruct (existsb is_failure results) eqn:E; [|done].
    apply existsb_is_failure in E as (r & Hin & Hf). by destruct (Hall r Hin).
Qed.

(** The skipping loop goes through exactly when no item is a sublist. *)
Lemma skip_each_singles (steps : list StepAndArgs) skipped :
  skip_each (map One steps) skipped
  = Return (skipped ++ map (fun s => skip (step_of s)) steps).
Proof.
  revert skipped. induction steps as [|s steps IH]; intros skipped; cbn.
  - by rewrite app_nil_r.
  - destruct s; cbn; by rewrite IH, <- app_assoc.
Qed.

Lemma skip_each_return items skipped out :
  skip_each items skipped = Return out ->
  exists steps, items = map One steps.
Proof.
  revert skipped. induction items as [|item items IH]; intros skipped H.
  - by exists [].
  - destruct item as [s|l]; [|done]. cbn in H.
    assert (exists acc, skip_each items acc = Return out) as (acc & Hacc).
    { destruct s; by eexists. }
    destruct (IH _ Hacc) as (steps & ->). by exists (s :: steps).
Qed.

Lemma skip_each_sublist items skipped l :
  Many l ∈ items ->
  skip_each items skipped
  = Raise (AttributeError "'list' object has no attribute 'skip'").
Proof.
  revert skipped. induction items as [|item items IH]; intros skipped Hin.
  - by apply elem_of_nil in Hin.
  - destruct item as [s|l']; [|done].
    apply elem_of_cons in Hin as [Heq|Hin]; [done|].
    destruct s; cbn; by apply IH.
Qed.

Lemma flatten_singles {A} (steps : list A) : flatten (map One steps) = steps.
Proof.
  unfold flatten. induction steps as [|s steps IH]; [done|].
  cbn. by rewrite IH.
Qed.

Lemma flatten_app {A} (items1 items2 : list (OneOrMany A)) :
  flatten (items1 ++ items2) = flatten items1 ++ flatten items2.
Proof. unfold flatten. apply flat_map_app. Qed.

(** While nothing has failed, the runner runs the items in order. *)
Lemma run_steps_app before :
  forall rest results log values,
  Forall (fun r => status r <> FAILURE) results ->
  Forall2 (fun s v => task_value (call_of s) = Return v)
          (flatten before) values ->
  Forall (fun r => status r <> FAILURE) values ->
  run_steps (before ++ rest) results log
  = run_steps rest (results ++ values)
              (log ++ map Soonify (map call_of (flatten before))).
Proof.
  induction before as [|item before IH];
    intros rest results log values Hres Hvals Hok.
  - cbn in Hvals. inversion Hvals; subst. cbn. by rewrite !app_nil_r.
  - change (flatten (item :: before)) with (unwrap item ++ flatten before)
      in *.
    apply Forall2_app_inv_l in Hvals as (vs1 & vs2 & H1 & H2 & ->).
    apply Forall_app in Hok as [Hok1 Hok2].
    cbn [app run_steps].
    apply existsb_is_failure_false in Hres as Hnf. rewrite Hnf.
    assert (gather (map call_of (unwrap item)) = Return vs1) as ->.
    { apply gather_return. by apply Forall2_fmap_l. }
    rewrite (IH rest (results ++ vs1) _ vs2); [|by apply Forall_app|done..].
    by rewrite !map_app, <- !app_assoc.
Qed.

(** Whatever the steps do, a list that [run_steps] returns is the list of
    earlier results it was given followed by exactly one result for each
    step of the list, sublists counted step by step. *)
Theorem run_steps_extends_results items :
  forall results log out log',
  run_steps items results log = (Return out, log') ->
  exists new_results,
    out = results ++ new_results /\
    length new_results = length (flatten items).
Proof.
  induction items as [|item items IH]; intros results log out log' Hrun.
  - cbn in Hrun. inversion Hrun; subst. exists []. by rewrite app_nil_r.
  - cbn [run_steps] in Hrun.
    destruct (existsb is_failure results).
    + destruct (skip_each (item :: items) []) as [skipped|e] eqn:Es; [|done].
      inversion Hrun; subst. exists skipped. split; [done|].
      destruct (skip_each_return _ _ _ Es) as (steps & Heq).
      rewrite Heq, skip_each_singles in Es. inversion Es; subst.
      by rewrite Heq, flatten_singles, length_map.
    + destruct (gather (map call_of (unwrap item))) as [vs|e] eqn:Eg; [|done].
      destruct (IH _ _ _ _ Hrun) as (ext & -> & Hlen).
      exists (vs ++ ext). split; [by rewrite app_assoc|].
      apply gather_length in Eg. rewrite length_map in Eg.
      change (flatten (item :: items)) with (unwrap item ++ flatten items).
      rewrite !length_app. lia.
Qed.

Lemma run_steps_skip_singles (steps : list StepAndArgs) results failed log :
  failed ∈ results ->
  status failed = FAILURE ->
  run_steps (map One steps) results log
  = (Return (results ++ map (fun s => skip (step_of s)) steps), log).
Proof.
  intros Hin Hfailed.
  assert (existsb is_failure results = true) as Hf.
  { apply existsb_is_failure. by exists failed. }
  destruct steps as [|s steps]; [cbn; by rewrite app_nil_r|].
  change (map One (s :: steps)) with (One s :: map One steps).
  cbn [run_steps]. rewrite Hf.
  change (One s :: map One steps) with (map One (s :: steps)).
  by rewrite skip_each_singles.
Qed.

(** Called with a failed result among the earlier ones and only single
    steps to go, [run_steps] runs none of them: nothing is handed to a
    task group, and the list returned is the earlier results followed by
    the [skip()] of each step, in order. *)
Theorem run_steps_skips_after_failure (steps : list StepAndArgs) results
        failed log :
  failed ∈ results ->
  status failed = FAILURE ->
  run_steps (map One steps) results log
  = (Return (results ++ map (fun s => skip (step_of s)) steps), log).
Proof. apply run_steps_skip_singles. Qed.

(** Called with a failed result among the earlier ones and a sublist among
    the items to go, [run_steps] does not return: the skipping loop asks
    the sublist itself for [skip], which raises.  Nothing is run. *)
Theorem run_steps_sublist_after_failure_raises items results failed l log :
  failed ∈ results ->
  status failed = FAILURE ->
  Many l ∈ items ->
  run_steps items results log
  = (Raise (AttributeError "'list' object has no attribute 'skip'"), log).
Proof.
  intros Hin Hfailed Hmany.
  assert (existsb is_failure results = true) as Hf.
  { apply existsb_is_failure. by exists failed. }
  destruct items as [|item items]; [by apply elem_of_nil in Hmany|].
  cbn [run_steps]. rewrite Hf.
  by rewrite (skip_each_sublist _ _ l Hmany).
Qed.

(** When no result fails, neither an earlier one nor one of a step of the
    list, every step is handed to a task group once, in the order of the
    list, and the list returned is the earlier results followed by the
    results of the steps in that order. *)
Theorem run_steps_runs_all items results log values :
  Forall (fun r => status r <> FAILURE) results ->
  Forall2 (fun s v => task_value (call_of s) = Return v)
          (flatten items) values ->
  Forall (fun r => status r <> FAILURE) values ->
  run_steps items results log
  = (Return (results ++ values),
     log ++ map Soonify (map call_of (flatten items))).
Proof.
  intros Hres Hvals Hok.
  rewrite <- (app_nil_r items) at 1.
  by rewrite (run_steps_app items [] results log values).
Qed.

(** Fail fast, by item: if the first failure comes from the item [item],
    all the steps of [item] have run all the same (a failed step does not
    stop the steps of its own sublist), and each of the single steps after
    it is skipped without being run. *)
Theorem run_steps_fail_fast before item (after : list StepAndArgs) results
        log values_before values_item failed :
  Forall (fun r => status r <> FAILURE) results ->
  Forall2 (fun s v => task_value (call_of s) = Return v)
          (flatten before) values_before ->
  Forall (fun r => status r <> FAILURE) values_before ->
  Forall2 (fun s v => task_value (call_of s) = Return v)
          (unwrap item) values_item ->
  failed ∈ values_item ->
  status failed = FAILURE ->
  run_steps (before ++ item :: map One after) results log
  = (Return (results ++ values_before ++ values_item
               ++ map (fun s => skip (step_of s)) after),
     log ++ map Soonify (map call_of (flatten (before ++ [item])))).
Proof.
  intros Hres Hvb Hokb Hvi Hin Hfailed.
  rewrite (run_steps_app before _ results log values_before) by done.
  cbn [run_steps].
  assert (existsb is_failure (results ++ values_before) = false) as ->.
  { apply existsb_is_failure_false. by apply Forall_app. }
  assert (gather (map call_of (unwrap item)) = Return values_item) as ->.
  { apply gather_return. by apply Forall2_fmap_l. }
  rewrite (run_steps_skip_singles after _ failed).
  - rewrite flatten_app.
    change (flatten [item]) with (unwrap item ++ []).
    rewrite app_nil_r, !map_app, <- !app_assoc. done.
  - apply elem_of_app. right. done.
  - done.
Qed.

(** ** [new_run_steps] *)

Lemma any_failure_true (results : gmap string StepResult) :
  any_failure results = true <->
  exists k r, results !! k = Some r /\ status r = FAILURE.
Proof.
  unfold any_failure. rewrite existsb_is_failure. split.
  - intros (r & Hin & Hf). apply list_elem_of_fmap in Hin as ([k r'] & -> & Hin).
    apply elem_of_map_to_list in Hin. by exists k, r'.
  - intros (k & r & Hk & Hf). exists r. split; [|done].
    apply list_elem_of_fmap. exists (k, r). split; [done|].
    by apply elem_of_map_to_list.
Qed.

(** Assigning pairs in order to a dict. *)
Lemma assign_all_dom (kvs : list (string * StepResult))
      (d : gmap string StepResult) :
  dom (foldl (fun d kv => <[kv.1 := kv.2]> d) d kvs)
  =@{gset string} dom d ∪ list_to_set (map fst kvs).
Proof.
  revert d. induction kvs as [|[k v] kvs IH]; intros d; cbn.
  - by rewrite (right_id_L ∅ (∪)).
  - rewrite IH, dom_insert_L.
    by rewrite (comm_L (∪) {[k]} (dom d)), (assoc_L (∪)).
Qed.

Lemma assign_all_other (kvs : list (string * StepResult))
      (d : gmap string StepResult) k :
  k ∉ map fst kvs ->
  foldl (fun d kv => <[kv.1 := kv.2]> d) d kvs !! k = d !! k.
Proof.
  revert d. induction kvs as [|[k' v] kvs IH]; intros d Hk; cbn; [done|].
  cbn in Hk. apply not_elem_of_cons in Hk as [Hne Hk].
  rewrite IH by done. by rewrite lookup_insert_ne.
Qed.

Lemma dict_of_dom kvs :
  dom (dict_of kvs) =@{gset string} list_to_set (map fst kvs).
Proof.
  unfold dict_of. by rewrite assign_all_dom, dom_empty_L, (left_id_L ∅ (∪)).
Qed.

Lemma dict_of_other kvs k : k ∉ map fst kvs -> dict_of kvs !! k = None.
Proof. intros Hk. unfold dict_of. by rewrite assign_all_other. Qed.

(** The two nested loops that skip what is left assign [skip()] to the id
    of every remaining step, in order. *)
Lemma skip_all_dict_of (runnables : list (OneOrMany Runnable)) :
  skip_all runnables
  = dict_of (map (fun r => (id r, skip (step r))) (flatten runnables)).
Proof.
  unfold skip_all, dict_of. generalize (∅ : gmap string StepResult).
  induction runnables as [|item runnables IH]; intros d; [done|].
  change (flatten (item :: runnables))
    with (unwrap item ++ flatten runnables).
  rewrite map_app, foldl_app. cbn [foldl]. rewrite IH. f_equal.
  destruct item as [r|l]; [done|]. cbn [unwrap].
  revert d. induction l as [|s l IHl]; intros d; [done|]. cbn. apply IHl.
Qed.

Lemma map_fst_id_skip (l : list Runnable) :
  map fst (map (fun r => (id r, skip (step r))) l) = map id l.
Proof. induction l as [|r l IH]; [done|]. cbn. by rewrite IH. Qed.

Lemma fst_zip_ids (l : list Runnable) (values : list StepResult) :
  length values = length l ->
  map fst (zip (map id l) values) = map id l.
Proof.
  revert values. induction l as [|r l IH]; intros [|v values] Hlen;
    cbn in *; try done. by rewrite IH by lia.
Qed.

Lemma soonify_steps_spec context steps :
  forall (results : gmap string StepResult) tasks log,
  exists new_tasks new,
    (soonify_steps context steps results tasks log).2 = log ++ new /\
    scheduled new = new_tasks /\
    Forall (fun m => exists i, i ∈ skip_steps context /\
                               m = "Skipping step " +:+ i) (infos new) /\
    Forall2 (task_for context results)
            (take (length new_tasks) steps) new_tasks /\
    match (soonify_steps context steps results tasks log).1 with
    | Return tasks' =>
        tasks' = tasks ++ new_tasks /\ length new_tasks = length steps
    | Raise _ => True
    end.
Proof.
  induction steps as [|r steps IH]; intros results tasks log; cbn.
  - exists [], []. rewrite !app_nil_r. repeat split; constructor.
  - destruct (bool_decide (id r ∈ skip_steps context)) eqn:Eskip.
    + destruct (IH results (tasks ++ [CallAsyncSkip (step r) "Skipped by user"])
                  (log ++ [LogInfo ("Skipping step " +:+ id r);
                           Soonify (CallAsyncSkip (step r) "Skipped by user")]))
        as (new_tasks & new & Hlog & Hsched & Hinfos & Hfor & Hres).
      exists (CallAsyncSkip (step r) "Skipped by user" :: new_tasks),
        ([LogInfo ("Skipping step " +:+ id r);
          Soonify (CallAsyncSkip (step r) "Skipped by user")] ++ new).
      split; [by rewrite Hlog, <- app_assoc|].
      split; [by rewrite scheduled_app, Hsched|].
      split.
      { rewrite infos_app. cbn. constructor; [|done].
        exists (id r). split; [|done]. by apply bool_decide_eq_true in Eskip. }
      split.
      { cbn. constructor; [|done]. unfold task_for. by rewrite Eskip. }
      destruct (soonify_steps _ _ _ _ _).1; [|done].
      destruct Hres as [-> Hlen]. cbn. rewrite <- app_assoc. split; [done|lia].
    + destruct (evaluate_run_args (args r) results) as [kwargs|e] eqn:Eargs.
      * destruct (IH results (tasks ++ [CallRun (step r) [] kwargs])
                    (log ++ [Soonify (CallRun (step r) [] kwargs)]))
          as (new_tasks & new & Hlog & Hsched & Hinfos & Hfor & Hres).
        exists (CallRun (step r) [] kwargs :: new_tasks),
          ([Soonify (CallRun (step r) [] kwargs)] ++ new).
        split; [by rewrite Hlog, <- app_assoc|].
        split; [by rewrite scheduled_app, Hsched|].
        split; [by rewrite infos_app|].
        split.
        { cbn. constructor; [|done]. unfold task_for. rewrite Eskip.
          by exists kwargs. }
        destruct (soonify_steps _ _ _ _ _).1; [|done].
        destruct Hres as [-> Hlen]. cbn. rewrite <- app_assoc.
        split; [done|lia].
      * exists [], []. cbn. rewrite app_nil_r. repeat split; constructor.
Qed.

Lemma task_for_called context (results : gmap string StepResult) r c :
  task_for context results r c ->
  called_step c = step r /\
  is_run c = negb (bool_decide (id r ∈ skip_steps context)).
Proof.
  unfold task_for. destruct (bool_decide (id r ∈ skip_steps context)).
  - by intros ->.
  - by intros (kwargs & _ & ->).
Qed.

Lemma tasks_for_called context (results : gmap string StepResult)
      (steps : list Runnable) (tasks : list Call) :
  Forall2 (task_for context results) steps tasks ->
  map called_step tasks = map step steps /\
  Forall (fun c => exists r, r ∈ steps /\ called_step c = step r /\
                   is_run c = negb (bool_decide (id r ∈ skip_steps context)))
         tasks.
Proof.
  induction 1 as [|r c steps tasks Hrc _ [IH1 IH2]]; [by split|].
  apply task_for_called in Hrc as [Hs Hr]. split.
  - cbn. by rewrite Hs, IH1.
  - constructor.
    + exists r. split; [by left|done].
    + eapply Forall_impl; [exact IH2|]. cbn.
      intros c' (r' & Hin & H'). exists r'. split; [by right|done].
Qed.

Lemma log_steps_quiet context (steps : list (OneOrMany Runnable)) :
  forall log, exists tree,
    log_steps context steps log = log ++ tree /\ scheduled tree = [].
Proof.
  induction steps as [|item steps IH]; intros log.
  - exists []. by rewrite app_nil_r.
  - destruct item as [r|l]; cbn [log_steps].
    + destruct (IH (log ++ [LogInfo ("- " +:+ _get_step_id_str context r)]))
        as (tree & -> & Hq).
      eexists (_ :: tree). by rewrite <- app_assoc.
    + match goal with
      | |- context [log_steps _ _ (log ++ [?line])] =>
          destruct (IH (log ++ [line])) as (tree & -> & Hq);
          exists (line :: tree)
      end.
      by rewrite <- app_assoc.
Qed.

(** The log before the first item is looked at: the tree, if the results
    are empty and there is something to run. *)
Lemma tree_logged context (runnables : list (OneOrMany Runnable))
      (results : gmap string StepResult) log :
  exists tree,
    (if negb (Nat.eqb (length runnables) 0) && Nat.eqb (size results) 0
     then pretty_log_steps_tree context runnables log
     else log) = log ++ tree /\
    scheduled tree = [] /\
    (size results <> 0%nat -> tree = []).
Proof.
  destruct (Nat.eqb_spec (size results) 0) as [Hz|Hnz].
  - destruct (negb _); cbn [andb].
    + unfold pretty_log_steps_tree.
      destruct (log_steps_quiet context runnables
                  (log ++ [LogInfo "Steps to Run:"])) as (tree & -> & Hq).
      exists (LogInfo "Steps to Run:" :: tree). rewrite <- app_assoc.
      by repeat split.
    + exists []. rewrite app_nil_r. by repeat split.
  - rewrite andb_false_r. exists []. rewrite app_nil_r. by repeat split.
Qed.

Lemma union_size_nonzero (new_results results : gmap string StepResult) :
  size results <> 0%nat -> size (new_results ∪ results) <> 0%nat.
Proof.
  rewrite !map_size_non_empty_iff. intros Hne Hempty. apply Hne.
  apply map_eq. intros k. rewrite lookup_empty.
  assert ((new_results ∪ results) !! k = None) as Hk
    by (by rewrite Hempty, lookup_empty).
  by apply lookup_union_None in Hk as [_ ?].
Qed.

(** What a run hands to the task groups and logs, for every outcome. *)
Lemma new_run_steps_log context (runnables : list (OneOrMany Runnable)) :
  forall (results : gmap string StepResult) fail_fast log,
  exists new,
    (new_run_steps context runnables results fail_fast log).2 = log ++ new /\
    map called_step (scheduled new) `prefix_of` map step (flatten runnables) /\
    Forall (fun c => exists r, r ∈ flatten runnables /\
                     called_step c = step r /\
                     is_run c = negb (bool_decide (id r ∈ skip_steps context)))
           (scheduled new) /\
    (size results <> 0%nat ->
     Forall (fun m => exists i, i ∈ skip_steps context /\
                                m = "Skipping step " +:+ i) (infos new)) /\
    (fail_fast = false ->
     forall out,
       (new_run_steps context runnables results fail_fast log).1 = Return out ->
       map called_step (scheduled new) = map step (flatten runnables)).
Proof.
  induction runnables as [|item rest IH]; intros results fail_fast log.
  { cbn. exists []. rewrite app_nil_r. split; [done|].
    split; [done|]. split; [constructor|]. split; [constructor|done]. }
  cbn [new_run_steps].
  destruct (tree_logged context (item :: rest) results log)
    as (tree & -> & Htree & Hnotree).
  change (flatten (item :: rest)) with (unwrap item ++ flatten rest).
  destruct (fail_fast && any_failure results) eqn:Eff.
  { exists tree. cbn [snd fst]. split; [done|]. rewrite Htree.
    split; [apply prefix_nil|]. split; [constructor|].
    split; [intros Hnz; rewrite (Hnotree Hnz); constructor|].
    intros ->. done. }
  destruct (soonify_steps_spec context (unwrap item) results [] (log ++ tree))
    as (new_tasks & new1 & Hlog1 & Hsched1 & Hinfos1 & Hfor1 & Hres1).
  destruct (tasks_for_called _ _ _ _ Hfor1) as [Hcalled1 Hrun1].
  assert (map called_step new_tasks `prefix_of`
            map step (unwrap item ++ flatten rest)) as Hpre1.
  { rewrite Hcalled1.
    exists (map step (drop (length new_tasks) (unwrap item) ++ flatten rest)).
    by rewrite <- map_app, app_assoc, take_drop. }
  assert (Forall (fun c => exists r, r ∈ unwrap item ++ flatten rest /\
                   called_step c = step r /\
                   is_run c = negb (bool_decide (id r ∈ skip_steps context)))
                 new_tasks) as Hrun1'.
  { eapply Forall_impl; [exact Hrun1|]. cbn. intros c (r & Hin & H').
    exists r. split; [|done]. apply elem_of_app. left.
    apply elem_of_take in Hin as (i & Hi & _).
    by eapply list_elem_of_lookup_2. }
  destruct (soonify_steps context (unwrap item) results [] (log ++ tree))
    as [[tasks|e] log1] eqn:Esoon; cbn [fst snd] in *.
  2: { exists (tree ++ new1). split; [by rewrite Hlog1, <- app_assoc|].
       rewrite scheduled_app, infos_app, Htree, Hsched1. cbn [app].
       split; [done|]. split; [done|].
       split; [intros Hnz; by rewrite (Hnotree Hnz)|]. done. }
  destruct Hres1 as [-> Hlen1]. cbn [app] in *.
  rewrite Hlen1, firstn_all in Hcalled1.
  destruct (gather new_tasks) as [values|e] eqn:Eg.
  2: { exists (tree ++ new1). split; [by rewrite Hlog1, <- app_assoc|].
       rewrite scheduled_app, infos_app, Htree, Hsched1. cbn [app].
       split; [done|]. split; [done|].
       split; [intros Hnz; by rewrite (Hnotree Hnz)|]. done. }
  destruct (IH (dict_of (zip (map id (unwrap item)) values) ∪ results)
               fail_fast log1) as (new2 & Hlog2 & Hpre2 & Hrun2 & Hinfos2 & Hall2).
  exists (tree ++ new1 ++ new2).
  split; [by rewrite Hlog2, Hlog1, <- !app_assoc|].
  rewrite !scheduled_app, !infos_app, Htree, Hsched1. cbn [app].
  split.
  { rewrite !map_app, Hcalled1. by apply prefix_app. }
  split.
  { apply Forall_app. split; [done|].
    eapply Forall_impl; [exact Hrun2|]. cbn. intros c (r & Hin & H').
    exists r. split; [|done]. apply elem_of_app. by right. }
  split.
  { intros Hnz. rewrite (Hnotree Hnz). cbn. apply Forall_app. split; [done|].
    apply Hinfos2. by apply union_size_nonzero. }
  intros Hff out Hout. rewrite !map_app, Hcalled1. f_equal.
  by eapply Hall2.
Qed.

(** A dict that [new_run_steps] returns has a result for every earlier key
    and for the id of every step of the list, whether the step was run,
    skipped by the user or skipped after a failure, and for nothing else;
    the results under keys that are no id of the list are the earlier
    ones, untouched. *)
Theorem new_run_steps_keys context (runnables : list (OneOrMany Runnable)) :
  forall (results : gmap string StepResult) fail_fast log out log',
  new_run_steps context runnables results fail_fast log = (Return out, log') ->
  dom out =@{gset string}
    dom results ∪ list_to_set (map id (flatten runnables)) /\
  (forall k, k ∉ map id (flatten runnables) -> out !! k = results !! k).
Proof.
  induction runnables as [|item rest IH];
    intros results fail_fast log out log' Hrun.
  { cbn in Hrun. inversion Hrun; subst. cbn.
    by rewrite (right_id_L ∅ (∪)). }
  cbn [new_run_steps] in Hrun.
  destruct (fail_fast && any_failure results).
  { inversion Hrun; subst. rewrite skip_all_dict_of. split.
    - rewrite dom_union_L, dict_of_dom, map_fst_id_skip.
      by rewrite (comm_L (∪)).
    - intros k Hk. apply lookup_union_r, dict_of_other.
      by rewrite map_fst_id_skip. }
  match type of Hrun with
  | context [soonify_steps ?c ?s ?r ?t ?l] =>
      destruct (soonify_steps_spec c s r t l)
        as (new_tasks & new1 & _ & _ & _ & _ & Hres1);
      destruct (soonify_steps c s r t l) as [[tasks|e] log1]; [|done]
  end.
  cbn [fst] in Hres1. destruct Hres1 as [-> Hlen1]. cbn [app] in Hrun.
  destruct (gather new_tasks) as [values|e] eqn:Eg; [|done].
  apply gather_length in Eg.
  destruct (IH _ _ _ _ _ Hrun) as [Hdom Hother].
  change (flatten (item :: rest)) with (unwrap item ++ flatten rest).
  rewrite map_app, list_to_set_app_L. split.
  - rewrite Hdom, dom_union_L, dict_of_dom, fst_zip_ids by lia.
    rewrite (comm_L (∪) (list_to_set (map id (unwrap item))) (dom results)).
    by rewrite (assoc_L (∪)).
  - intros k Hk. apply not_elem_of_app in Hk as [Hk1 Hk2].
    rewrite (Hother k Hk2). apply lookup_union_r, dict_of_other.
    by rewrite fst_zip_ids by lia.
Qed.

(** With [fail_fast] set and a failed result among the earlier ones,
    [new_run_steps] runs nothing and logs nothing: the dict returned is
    the earlier results with [skip()] assigned, in order, to the id of
    every step of the list. *)
Theorem new_run_steps_fail_fast_skips context
        (runnables : list (OneOrMany Runnable))
        (results : gmap string StepResult) log k failed :
  results !! k = Some failed ->
  status failed = FAILURE ->
  new_run_steps context runnables results true log
  = (Return (dict_of (map (fun r => (id r, skip (step r)))
                          (flatten runnables)) ∪ results), log).
Proof.
  intros Hk Hfailed.
  assert (any_failure results = true) as Hany.
  { apply any_failure_true. by exists k, failed. }
  assert (Nat.eqb (size results) 0 = false) as Hsize.
  { apply Nat.eqb_neq, map_size_non_empty_iff. intros ->.
    by rewrite lookup_empty in Hk. }
  destruct runnables as [|item rest].
  - cbn. by rewrite (left_id_L ∅ (∪)).
  - cbn [new_run_steps]. rewrite Hsize, andb_false_r, Hany. cbn [andb].
    by rewrite skip_all_dict_of.
Qed.

(** Whatever the outcome, the [run] of a step whose id is in
    [context.skip_steps] is never handed to a task group: each task is for
    a step of the list, and it is a [run] exactly when the id of that step
    is not in [skip_steps] (otherwise it is the [async_skip]). *)
Theorem new_run_steps_never_runs_user_skipped context
        (runnables : list (OneOrMany Runnable))
        (results : gmap string StepResult) fail_fast log :
  exists new,
    (new_run_steps context runnables results fail_fast log).2 = log ++ new /\
    Forall (fun c => exists r, r ∈ flatten runnables /\
                     called_step c = step r /\
                     (is_run c = true <-> id r ∉ skip_steps context))
           (scheduled new).
Proof.
  destruct (new_run_steps_log context runnables results fail_fast log)
    as (new & Hlog & _ & Hrun & _).
  exists new. split; [done|].
  eapply Forall_impl; [exact Hrun|]. cbn. intros c (r & Hin & Hs & Hr).
  exists r. do 2 (split; [done|]). rewrite Hr.
  destruct (bool_decide_reflect (id r ∈ skip_steps context)); cbn;
    split; try done; intros; by exfalso.
Qed.

(** The steps are handed to the task groups in the order of the list,
    sublists step by step: whatever the outcome, the steps given a task
    form a prefix of the steps of the list; without [fail_fast], when the
    call returns, every step of the list was given a task. *)
Theorem new_run_steps_schedules_in_order context
        (runnables : list (OneOrMany Runnable))
        (results : gmap string StepResult) fail_fast log :
  exists new,
    (new_run_steps context runnables results fail_fast log).2 = log ++ new /\
    map called_step (scheduled new) `prefix_of` map step (flatten runnables) /\
    (fail_fast = false ->
     forall out,
       (new_run_steps context runnables results fail_fast log).1 = Return out ->
       map called_step (scheduled new) = map step (flatten runnables)).
Proof.
  destruct (new_run_steps_log context runnables results fail_fast log)
    as (new & Hlog & Hpre & _ & _ & Hall).
  by exists new.
Qed.

(** The tree of steps is logged only by a call that starts from no
    results: when some earlier result is given, the only lines logged, at
    any depth, are the "Skipping step" lines of steps the user skips. *)
Theorem new_run_steps_logs_tree_only_at_start context
        (runnables : list (OneOrMany Runnable))
        (results : gmap string StepResult) fail_fast log :
  results <> ∅ ->
  exists new,
    (new_run_steps context runnables results fail_fast log).2 = log ++ new /\
    Forall (fun m => exists i, i ∈ skip_steps context /\
                               m = "Skipping step " +:+ i) (infos new) /\
    "Steps to Run:" ∉ infos new.
Proof.
  intros Hne. apply map_size_non_empty_iff in Hne.
  destruct (new_run_steps_log context runnables results fail_fast log)
    as (new & Hlog & _ & _ & Hinfos & _).
  exists new. split; [done|]. specialize (Hinfos Hne). split; [done|].
  intros Hin. rewrite Forall_forall in Hinfos.
  destruct (Hinfos _ Hin) as (i & _ & Heq). discriminate Heq.
Qed.

(** The steps of one item do not see each other's results: when the first
    item is run, each of its steps that the user does not skip is given
    [run] with the keyword arguments computed from the results of the
    earlier items alone, and no positional argument. *)
Theorem new_run_steps_item_sees_earlier_results context item
        (rest : list (OneOrMany Runnable))
        (results : gmap string StepResult) fail_fast log out log' :
  fail_fast && any_failure results = false ->
  new_run_steps context (item :: rest) results fail_fast log
  = (Return out, log') ->
  exists new,
    log' = log ++ new /\
    Forall2 (task_for context results)
            (unwrap item)
            (take (length (unwrap item)) (scheduled new)).
Proof.
  intros Hff Hrun.
  cbn [new_run_steps] in Hrun. rewrite Hff in Hrun.
  destruct (tree_logged context (item :: rest) results log)
    as (tree & Htree & Hq & _).
  rewrite Htree in Hrun.
  destruct (soonify_steps_spec context (unwrap item) results [] (log ++ tree))
    as (new_tasks & new1 & Hlog1 & Hsched1 & _ & Hfor1 & Hres1).
  destruct (soonify_steps context (unwrap item) results [] (log ++ tree))
    as [[tasks|e] log1]; [|done].
  cbn [fst snd] in *. destruct Hres1 as [-> Hlen1]. cbn [app] in Hrun.
  destruct (gather new_tasks) as [values|e]; [|done].
  destruct (new_run_steps_log context rest
              (dict_of (zip (map id (unwrap item)) values) ∪ results)
              fail_fast log1) as (new2 & Hlog2 & _).
  rewrite Hrun in Hlog2. cbn [snd] in Hlog2.
  exists (tree ++ new1 ++ new2).
  split; [by rewrite Hlog2, Hlog1, <- !app_assoc|].
  rewrite !scheduled_app, Hq, Hsched1. cbn [app].
  rewrite <- Hlen1, take_app_length.
  by rewrite Hlen1, firstn_all in Hfor1.
Qed.
End StepsFacts.

(** ** Further properties on concrete sources *)

Module MoreExamples.
Import Scenario Cases.

Lemma merge_fields_order (a b c : Schema) :
  merge_fields (merge_fields a b) c = merge_fields (merge_fields a c) b.
Proof.
  apply map_eq. intros i. unfold merge_fields.
  rewrite !lookup_union_with.
  by destruct (a !! i), (b !! i), (c !! i).
Qed.

Lemma infer_schema_awaited_set_bounds_witness :
  exists r w' tr,
    _infer_schema no_parser csv_parser no_parser no_parser merge_schemas
                  (stream "emit_record" None with_a_bad_file 1 10) []
                  with_a_bad_file fresh_world = Some (r, w') /\
    trace w' = trace fresh_world ++ tr /\
    Forall (fun m => 1 <= Z.of_nat m <= 1 + 1) (awaits tr) /\
    (length (awaits tr) <= 3)%nat.
Proof.
  apply (infer_schema_awaited_set_bounds no_parser csv_parser no_parser
           no_parser merge_schemas
           (stream "emit_record" None with_a_bad_file 1 10) []
           with_a_bad_file fresh_world).
  cbn. lia.
Defined.

Lemma infer_schema_negative_limit_raises_witness :
  exists e,
    infer_schema no_parser csv_parser no_parser no_parser merge_schemas
                 (stream "emit_record" None two_files (-1) 10) []
                 two_files fresh_world = Some (Raise e, fresh_world) /\
    exc_class e = ValueError.
Proof.
  apply (infer_schema_negative_limit_raises no_parser csv_parser no_parser
           no_parser merge_schemas
           (stream "emit_record" None two_files (-1) 10) [] two_files
           fresh_world).
  - cbn. lia.
  - discriminate.
Defined.

Lemma infer_schema_returns_iff_witness :
  (exists schema w',
      _infer_schema no_parser csv_parser no_parser no_parser merge_schemas
                    (stream "emit_record" None two_files 1 10) [(1%nat, [])]
                    two_files fresh_world = Some (Return schema, w'))
  <-> (forall file, file ∈ two_files ->
         exists s,
           infer_schema_of csv_parser file (catalog_reader two_files)
           = Return s).
Proof.
  apply (infer_schema_returns_iff no_parser csv_parser no_parser no_parser
           merge_schemas (stream "emit_record" None two_files 1 10)
           [(1%nat, [])] two_files fresh_world).
  cbn. lia.
Defined.

Lemma infer_schema_merges_every_file_witness :
  exists schema w' order schemas,
    _infer_schema no_parser csv_parser no_parser no_parser merge_schemas
                  (stream "emit_record" None two_files 1 10) [(1%nat, [])]
                  two_files fresh_world = Some (Return schema, w') /\
    order ≡ₚ two_files /\
    Forall2 (fun file s =>
               infer_schema_of csv_parser file (catalog_reader two_files)
               = Return s) order schemas /\
    schema = foldl merge_schemas ∅ schemas.
Proof.
  destruct (infer_schema_merges_every_file no_parser csv_parser no_parser
              no_parser merge_schemas
              (stream "emit_record" None two_files 1 10) [(1%nat, [])]
              two_files fresh_world _ _ eq_refl)
    as (order & schemas & Hord & Hall & Hfold).
  eexists _, _, order, schemas. split; [reflexivity|]. by split.
Defined.

Lemma infer_schema_order_independent_witness :
  exists schema w1 w2,
    _infer_schema no_parser csv_parser no_parser no_parser merge_fields
                  (stream "emit_record" None two_files 1 10) []
                  two_files fresh_world = Some (Return schema, w1) /\
    _infer_schema no_parser csv_parser no_parser no_parser merge_fields
                  (stream "emit_record" None two_files 1 10) [(1%nat, [])]
                  two_files fresh_world = Some (Return schema, w2).
Proof.
  pose proof (infer_schema_order_independent no_parser csv_parser no_parser
                no_parser merge_fields
                (stream "emit_record" None two_files 1 10) [] [(1%nat, [])]
                two_files fresh_world fresh_world _ _ _ _
                merge_fields_order eq_refl eq_refl) as Heq.
  eexists _, _, _. split; [reflexivity|]. rewrite Heq. reflexivity.
Defined.

Lemma list_files_lists_once_witness :
  exists w1,
    list_files (stream "emit_record" None six_files 1 2) fresh_world
    = Some (Return [file "a.csv" 1; file "b.csv" 5; file "c.csv" 5;
                    file "d.csv" 0; file "e.csv" 7], w1) /\
    trace w1 = [EvListMatchingFiles ["*.csv"] None] /\
    list_files (stream "emit_record" None six_files 1 2) w1
    = Some (Return [file "a.csv" 1; file "b.csv" 5; file "c.csv" 5;
                    file "d.csv" 0; file "e.csv" 7], w1).
Proof.
  apply (list_files_lists_once (stream "emit_record" None six_files 1 2)
           fresh_world).
  reflexivity.
Defined.

Lemma get_json_schema_lists_at_most_once_witness :
  exists r w' tr,
    get_json_schema no_parser csv_parser no_parser no_parser merge_schemas
                    type_mapping_to_jsonschema
                    (stream "emit_record" None two_files 1 10) []
                    fresh_world = Some (r, w') /\
    trace w' = trace fresh_world ++ tr /\
    (length (listings tr) <= 1)%nat /\
    Forall (fun l => l = (["*.csv"], None)) (listings tr) /\
    (list_files_cache fresh_world <> None -> listings tr = []).
Proof.
  apply (get_json_schema_lists_at_most_once no_parser csv_parser no_parser
           no_parser merge_schemas type_mapping_to_jsonschema
           (stream "emit_record" None two_files 1 10) [] fresh_world).
Defined.

Lemma get_json_schema_failure_not_cached_witness :
  exists e w1,
    get_json_schema no_parser csv_parser no_parser no_parser merge_schemas
                    type_mapping_to_jsonschema
                    (stream "emit_record" None with_a_bad_file 1 10) []
                    fresh_world = Some (Raise e, w1) /\
    get_json_schema_cache w1 = None /\
    list_files_cache w1 <> None /\
    exists r w2 tr,
      get_json_schema no_parser csv_parser no_parser no_parser merge_schemas
                      type_mapping_to_jsonschema
                      (stream "emit_record" None with_a_bad_file 1 10)
                      [(1%nat, [])] w1 = Some (r, w2) /\
      trace w2 = trace w1 ++ tr /\
      listings tr = [].
Proof.
  assert (exists e w1,
            get_json_schema no_parser csv_parser no_parser no_parser
              merge_schemas type_mapping_to_jsonschema
              (stream "emit_record" None with_a_bad_file 1 10) []
              fresh_world = Some (Raise e, w1)) as (e & w1 & Hraise)
    by (vm_compute; eauto).
  exists e, w1. split; [exact Hraise|].
  destruct (get_json_schema_failure_not_cached no_parser csv_parser no_parser
              no_parser merge_schemas type_mapping_to_jsonschema
              (stream "emit_record" None with_a_bad_file 1 10) []
              fresh_world e w1 Hraise) as (Hs & Hl & Hretry).
  split; [exact Hs|]. split; [exact Hl|]. apply Hretry.
Defined.

Lemma get_json_schema_empty_sample_witness :
  exists w' tr,
    get_json_schema no_parser csv_parser no_parser no_parser merge_schemas
                    type_mapping_to_jsonschema
                    (stream "emit_record" None two_files 1 0) []
                    fresh_world = Some (Return ∅, w') /\
    get_json_schema_cache w' = Some ∅ /\
    trace w' = trace fresh_world ++ tr /\
    inferred_files tr = [] /\
    awaits tr = [].
Proof.
  apply (get_json_schema_empty_sample no_parser csv_parser no_parser
           no_parser merge_schemas type_mapping_to_jsonschema
           (stream "emit_record" None two_files 1 0) [] fresh_world
           two_files
           (record_events [EvListMatchingFiles ["*.csv"] None]
              {| trace := []; get_json_schema_cache := None;
                 list_files_cache := Some two_files;
                 loop_tasks := []; next_task_id := 0 |}));
    [reflexivity | reflexivity | reflexivity | by right].
Defined.

Lemma get_json_schema_warns_when_cut_witness :
  (exists r w' tr,
     get_json_schema no_parser csv_parser no_parser no_parser merge_schemas
                     type_mapping_to_jsonschema
                     (stream "emit_record" None six_files 1 2) []
                     fresh_world = Some (r, w') /\
     trace w' = trace fresh_world ++ tr /\
     warnings tr = [RefusingToInfer 2 2]) /\
  (exists r w' tr,
     get_json_schema no_parser csv_parser no_parser no_parser merge_schemas
                     type_mapping_to_jsonschema
                     (stream "emit_record" None six_files 1 (-1)) []
                     fresh_world = Some (r, w') /\
     trace w' = trace fresh_world ++ tr /\
     warnings tr = [RefusingToInfer 4 (-1)]).
Proof.
  split.
  - destruct (get_json_schema_warns_when_cut no_parser csv_parser no_parser
                no_parser merge_schemas type_mapping_to_jsonschema
                (stream "emit_record" None six_files 1 2) [] fresh_world
                [file "a.csv" 1; file "b.csv" 5; file "c.csv" 5;
                 file "d.csv" 0; file "e.csv" 7]
                (record_events [EvListMatchingFiles ["*.csv"] None]
                   {| trace := []; get_json_schema_cache := None;
                      list_files_cache :=
                        Some [file "a.csv" 1; file "b.csv" 5; file "c.csv" 5;
                              file "d.csv" 0; file "e.csv" 7];
                      loop_tasks := []; next_task_id := 0 |}))
      as (r & w' & tr & Hrun & Htr & _ & Hcut & _);
      [reflexivity | reflexivity | reflexivity |].
    exists r, w', tr. do 2 (split; [done|]). apply Hcut. cbn. lia.
  - destruct (get_json_schema_warns_when_cut no_parser csv_parser no_parser
                no_parser merge_schemas type_mapping_to_jsonschema
                (stream "emit_record" None six_files 1 (-1)) [] fresh_world
                [file "a.csv" 1; file "b.csv" 5; file "c.csv" 5;
                 file "d.csv" 0; file "e.csv" 7]
                (record_events [EvListMatchingFiles ["*.csv"] None]
                   {| trace := []; get_json_schema_cache := None;
                      list_files_cache :=
                        Some [file "a.csv" 1; file "b.csv" 5; file "c.csv" 5;
                              file "d.csv" 0; file "e.csv" 7];
                      loop_tasks := []; next_task_id := 0 |}))
      as (r & w' & tr & Hrun & Htr & _ & _ & Hneg);
      [reflexivity | reflexivity | reflexivity |].
    exists r, w', tr. do 2 (split; [done|]). apply Hneg. cbn. lia.
Defined.

Lemma read_records_stops_at_failing_parser_witness :
  (read_records no_parser flaky_parser no_parser no_parser
                record_passes_validation_policy
                (stream "skip_record" None with_a_bad_file 1 10)
                full_refresh None None None fresh_world).1
  = ([ {[ "x" := VInt 1 ]}; {[ "x" := VInt 2 ]} ],
     Some (Exc OtherException "truncated file" None)).
Proof.
  rewrite (read_records_stops_at_failing_parser no_parser flaky_parser
             no_parser no_parser record_passes_validation_policy
             (stream "skip_record" None with_a_bad_file 1 10) full_refresh
             None None None ∅ fresh_world [file "a.csv" 1]
             (file "bad.csv" 2) [file "c.csv" 3]
             (Exc OtherException "truncated file" None));
    [ vm_compute; reflexivity | reflexivity | reflexivity
    | intros f Hf; apply list_elem_of_singleton in Hf; by subst
    | reflexivity ].
Defined.


Lemma read_records_lists_once_witness :
  exists g w' tr,
    read_records no_parser csv_parser no_parser no_parser
                 record_passes_validation_policy
                 (stream "skip_record" None two_files 1 10)
                 incremental None None (Some {[ "start" := VInt 2 ]})
                 fresh_world = (g, w') /\
    trace w' = trace fresh_world ++ tr /\
    listings tr = [(["*.csv"], None)] /\
    inferred_files tr = [] /\
    awaits tr = [] /\
    same_caches fresh_world w' /\
    loop_tasks w' = loop_tasks fresh_world.
Proof.
  apply (read_records_lists_once no_parser csv_parser no_parser no_parser
           record_passes_validation_policy
           (stream "skip_record" None two_files 1 10) incremental None None
           (Some {[ "start" := VInt 2 ]}) ∅ fresh_world).
  reflexivity.
Defined.
End MoreExamples.

(** ** The runners on a pipeline *)

Module PipelineExamples.
Import Steps Pipeline.

Lemma run_steps_extends_results_witness :
  exists new_results,
    [result_of SUCCESS "old"; result_of SUCCESS "build";
     result_of SUCCESS "unit"; result_of SUCCESS "lint";
     result_of SUCCESS "publish"]
    = [result_of SUCCESS "old"] ++ new_results /\
    length new_results = length (flatten (steps_and_run_args unit_tests)).
Proof.
  eapply (StepsFacts.run_steps_extends_results
            (steps_and_run_args unit_tests) [result_of SUCCESS "old"] []).
  reflexivity.
Defined.

Lemma run_steps_skips_after_failure_witness :
  run_steps (map One [Bare lint; WithArgs publish [VInt 1]])
            [result_of SUCCESS "build"; result_of FAILURE "unit"] []
  = (Return ([result_of SUCCESS "build"; result_of FAILURE "unit"]
             ++ map (fun s => skip (step_of s))
                    [Bare lint; WithArgs publish [VInt 1]]), []).
Proof.
  apply (StepsFacts.run_steps_skips_after_failure
           [Bare lint; WithArgs publish [VInt 1]]
           [result_of SUCCESS "build"; result_of FAILURE "unit"]
           (result_of FAILURE "unit") []).
  - apply list_elem_of_further, list_elem_of_here.
  - reflexivity.
Defined.

Lemma run_steps_sublist_after_failure_raises_witness :
  run_steps (steps_and_run_args unit_tests) [result_of FAILURE "setup"] []
  = (Raise (AttributeError "'list' object has no attribute 'skip'"), []).
Proof.
  apply (StepsFacts.run_steps_sublist_after_failure_raises
           (steps_and_run_args unit_tests) [result_of FAILURE "setup"]
           (result_of FAILURE "setup")
           [WithArgs unit_tests [VStr "fast"]; Bare lint] []).
  - apply list_elem_of_here.
  - reflexivity.
  - apply list_elem_of_further, list_elem_of_here.
Defined.

Lemma run_steps_runs_all_witness :
  run_steps (steps_and_run_args unit_tests) [result_of SKIPPED "setup"] []
  = (Return ([result_of SKIPPED "setup"]
             ++ [result_of SUCCESS "build"; result_of SUCCESS "unit";
                 result_of SUCCESS "lint"; result_of SUCCESS "publish"]),
     [] ++ map Soonify (map call_of (flatten (steps_and_run_args unit_tests)))).
Proof.
  apply (StepsFacts.run_steps_runs_all
           (steps_and_run_args unit_tests) [result_of SKIPPED "setup"] []).
  - repeat constructor; discriminate.
  - repeat constructor.
  - repeat constructor; discriminate.
Defined.

Lemma run_steps_fail_fast_witness :
  run_steps ([One (Bare build)]
             ++ Many [WithArgs broken_tests [VStr "fast"]; Bare lint]
             :: map One [WithArgs publish [VInt 1]]) [] []
  = (Return ([] ++ [result_of SUCCESS "build"]
             ++ [result_of FAILURE "unit"; result_of SUCCESS "lint"]
             ++ map (fun s => skip (step_of s)) [WithArgs publish [VInt 1]]),
     [] ++ map Soonify
             (map call_of
                (flatten ([One (Bare build)]
                          ++ [Many [WithArgs broken_tests [VStr "fast"];
                                    Bare lint]])))).
Proof.
  apply (StepsFacts.run_steps_fail_fast
           [One (Bare build)]
           (Many [WithArgs broken_tests [VStr "fast"]; Bare lint])
           [WithArgs publish [VInt 1]] [] []
           [result_of SUCCESS "build"]
           [result_of FAILURE "unit"; result_of SUCCESS "lint"]
           (result_of FAILURE "unit")).
  - constructor.
  - repeat constructor.
  - repeat constructor; discriminate.
  - repeat constructor.
  - apply list_elem_of_here.
  - reflexivity.
Defined.

Lemma new_run_steps_keys_witness :
  exists out log',
    new_run_steps context (runnables broken_tests)
                  {[ "setup" := result_of SUCCESS "setup" ]} false []
    = (Return out, log') /\
    dom out =@{gset string}
      dom ({[ "setup" := result_of SUCCESS "setup" ]}
             : gmap string StepResult)
      ∪ list_to_set (map id (flatten (runnables broken_tests))) /\
    (forall k, k ∉ map id (flatten (runnables broken_tests)) ->
               out !! k
               = ({[ "setup" := result_of SUCCESS "setup" ]}
                    : gmap string StepResult) !! k).
Proof.
  eexists _, _. split; [reflexivity|].
  eapply (StepsFacts.new_run_steps_keys context (runnables broken_tests)
            {[ "setup" := result_of SUCCESS "setup" ]} false []).
  reflexivity.
Defined.

Lemma new_run_steps_fail_fast_skips_witness :
  new_run_steps context (runnables unit_tests)
                {[ "setup" := result_of FAILURE "setup" ]} true []
  = (Return (dict_of (map (fun r => (id r, skip (step r)))
                          (flatten (runnables unit_tests)))
             ∪ {[ "setup" := result_of FAILURE "setup" ]}), []).
Proof.
  apply (StepsFacts.new_run_steps_fail_fast_skips context
           (runnables unit_tests)
           {[ "setup" := result_of FAILURE "setup" ]} [] "setup"
           (result_of FAILURE "setup")).
  - reflexivity.
  - reflexivity.
Defined.

Lemma new_run_steps_never_runs_user_skipped_witness :
  exists new,
    (new_run_steps context (runnables broken_tests) ∅ true []).2
    = [] ++ new /\
    Forall (fun c => exists r, r ∈ flatten (runnables broken_tests) /\
                     called_step c = step r /\
                     (is_run c = true <-> id r ∉ skip_steps context))
           (scheduled new).
Proof.
  apply (StepsFacts.new_run_steps_never_runs_user_skipped context
           (runnables broken_tests) ∅ true []).
Defined.

Lemma new_run_steps_schedules_in_order_witness :
  exists new,
    (new_run_steps context (runnables broken_tests) ∅ false []).2
    = [] ++ new /\
    map called_step (scheduled new)
      `prefix_of` map step (flatten (runnables broken_tests)) /\
    (false = false ->
     forall out,
       (new_run_steps context (runnables broken_tests) ∅ false []).1
       = Return out ->
       map called_step (scheduled new)
       = map step (flatten (runnables broken_tests))).
Proof.
  apply (StepsFacts.new_run_steps_schedules_in_order context
           (runnables broken_tests) ∅ false []).
Defined.

Lemma new_run_steps_logs_tree_only_at_start_witness :
  exists new,
    (new_run_steps context (runnables unit_tests)
                   {[ "setup" := result_of SUCCESS "setup" ]} false []).2
    = [] ++ new /\
    Forall (fun m => exists i, i ∈ skip_steps context /\
                               m = "Skipping step " +:+ i) (infos new) /\
    "Steps to Run:" ∉ infos new.
Proof.
  apply (StepsFacts.new_run_steps_logs_tree_only_at_start context
           (runnables unit_tests)
           {[ "setup" := result_of SUCCESS "setup" ]} false []).
  intros H. apply (f_equal (fun m => m !! "setup")) in H. discriminate H.
Defined.

Lemma new_run_steps_item_sees_earlier_results_witness :
  exists new,
    [Soonify (CallRun unit_tests [] {[ "image" := VStr "build" ]});
     LogInfo "Skipping step lint";
     Soonify (CallAsyncSkip lint "Skipped by user")]
    = [] ++ new /\
    Forall2 (task_for context {[ "build" := result_of SUCCESS "build" ]})
            (unwrap (Many (checks unit_tests)))
            (take (length (unwrap (Many (checks unit_tests))))
                  (scheduled new)).
Proof.
  eapply (StepsFacts.new_run_steps_item_sees_earlier_results context
            (Many (checks unit_tests)) []
            {[ "build" := result_of SUCCESS "build" ]} true []).
  - reflexivity.
  - reflexivity.
Defined.
End PipelineExamples.
